(** * Tensor-expression builders and loop-nest lowering

    A shallow embedding of [torch/csrc/jit/tensorexpr/tensor.cpp]:
    the [Tensor] entity, the [Compute] and [Reduce] builders and the
    lowering [Tensor::lowerToStmt] / [Tensor::ElementStmt].

    C++ pointers to immutable IR nodes are embedded as values of inductive
    types; the exceptions a call can raise are a [result]; allocation of
    index variables, tensors and (in [Module Arena]) statement nodes is
    explicit state passing. *)

From Stdlib Require Import String ZArith Arith Lia Bool List.
From Stdlib Require Import FunctionalExtensionality.
Import ListNotations.
Set Warnings "-register-all".

(** ** Exceptions *)

Inductive exn : Type :=
| malformed_input (msg : string)
| out_of_range_index.

Inductive result (A : Type) : Type :=
| Ok (a : A)
| Throw (e : exn).
Arguments Ok {A} a.
Arguments Throw {A} e.

Definition bindR {A B : Type} (m : result A) (k : A -> result B) : result B :=
  match m with
  | Ok a => k a
  | Throw e => Throw e
  end.

Declare Scope result_scope.
Delimit Scope result_scope with result.
Notation "x <- m ;; k" := (bindR m (fun x => k))
  (at level 100, m at next level, right associativity) : result_scope.
Open Scope result_scope.

(** [for (size_t i = 0; i < n; i++) { s = body(i, s); }] where the body may
    raise.  Indices are [size_t] in the source; every index the lowering
    computes lies below a vector length, so [nat] with truncated
    subtraction agrees with the unsigned arithmetic. *)
Definition for_upto {A : Type} (n : nat) (body : nat -> A -> result A) (a : A)
  : result A :=
  fold_left (fun acc i => x <- acc ;; body i x) (seq 0 n) (Ok a).

(** ** IR node model *)

(** Modelled from the spec: [Var] is declared outside [tensor.cpp].
    An index variable is a freshly allocated symbolic variable; its
    identity (the pointer in the source) is the allocation number
    [var_id], and it carries the optional name of the [DimArg] it was made
    for. *)
Record Var : Type := mkVar {
  var_name_hint : option string;
  var_id : nat
}.

(** Modelled from the spec: the expression nodes are declared outside
    [tensor.cpp].  Integer literals, variables, indexed loads from a
    named buffer and arithmetic. *)
Inductive Expr : Type :=
| IntImm (v : Z)
| EVar (v : Var)
| Load (buf_name : string) (indices : list Expr)
| Add (a b : Expr)
| Mul (a b : Expr).

(** Modelled from the spec: the backing-store descriptor, with its own
    shape and an optional initializer expression. *)
Record Buf : Type := mkBuf {
  buf_name : string;
  buf_dims : list Expr;
  buf_initializer : option Expr
}.

Definition Buf_ndim (b : Buf) : nat := length (buf_dims b).

(** Modelled from the spec: the statement nodes are declared outside
    [tensor.cpp]: [Store(buffer, indices, value, mask)],
    [For(indexVar, start, end, body)], [Block(ordered list of Stmt)].
    The stored value is a nullable pointer in the source
    ([ElementStmt] passes [body_] as it is). *)
Inductive Stmt : Type :=
| Store (b : Buf) (indices : list Expr) (value : option Expr) (mask : Expr)
| For (v : Var) (start stop : Expr) (body : Stmt)
| Block (stmts : list Stmt).

(** ** The Tensor entity *)

(** Modelled from the spec: the class declaration is outside
    [tensor.cpp].  The members are the ones [tensor.cpp] reads ([buf_],
    [args_], [body_]) and the reduction axes.  The name and the output
    extents [dims] are those of the backing buffer, which the constructor
    called by [Compute] makes from them. *)
Record Tensor : Type := mkTensor {
  buf_ : Buf;
  args_ : list Var;
  body_ : option Expr;
  reduce_dims_ : list Expr;
  reduce_args_ : list Var
}.

Definition buf (t : Tensor) : Buf := buf_ t.
Definition body (t : Tensor) : option Expr := body_ t.
Definition args (t : Tensor) : list Var := args_ t.
Definition dims (t : Tensor) : list Expr := buf_dims (buf t).
Definition reduce_dims (t : Tensor) : list Expr := reduce_dims_ t.
Definition reduce_args (t : Tensor) : list Var := reduce_args_ t.
Definition ndim (t : Tensor) : nat := Buf_ndim (buf t).
Definition reduce_ndim (t : Tensor) : nat := length (reduce_dims_ t).

(** [v[i]] on a vector.  The source reads the vector unchecked, so an
    index past the end is outside its defined behaviour; here such a read
    stops the computation with [out_of_range_index].  The properties below
    are about tensors with a variable for every axis, for which every read
    is in range. *)
Definition at_ {A : Type} (v : list A) (i : nat) : result A :=
  match nth_error v i with
  | Some a => Ok a
  | None => Throw out_of_range_index
  end.

(** Modelled from the spec: the indexed accessors of the class. *)
Definition dim (t : Tensor) (index : nat) : result Expr := at_ (dims t) index.
Definition arg (t : Tensor) (index : nat) : result Var := at_ (args t) index.
Definition reduce_dim (t : Tensor) (index : nat) : result Expr :=
  at_ (reduce_dims t) index.
Definition reduce_arg (t : Tensor) (index : nat) : result Var :=
  at_ (reduce_args t) index.

(** The invariants of the data model: one variable per axis. *)
Definition Tensor_wf (t : Tensor) : Prop :=
  length (args t) = length (dims t) /\
  length (reduce_args t) = length (reduce_dims t).

(** ** Lowering *)

(** [Tensor::ElementStmt] *)
Definition ElementStmt (t : Tensor) : result Stmt :=
  indices <- for_upto (Buf_ndim (buf_ t))
               (fun i indices =>
                  a <- at_ (args_ t) i ;;
                  Ok (indices ++ [EVar a]))
               [] ;;
  let mask := IntImm 1 in
  let update_stmt := Store (buf_ t) indices (body_ t) mask in
  Ok update_stmt.

(** [Tensor::lowerToStmt] *)
Definition lowerToStmt (t : Tensor) : result Stmt :=
  s <- ElementStmt t ;;
  match body t with
  | None => Ok s
  | Some _ =>
    if (ndim t =? 0) && (reduce_ndim t =? 0) then Ok s
    else
      let init_expr := buf_initializer (buf t) in
      let indices := map EVar (args t) in
      s <- (if 0 <? reduce_ndim t then
              s <- for_upto (reduce_ndim t)
                     (fun i s =>
                        let dim_index := reduce_ndim t - i - 1 in
                        a <- reduce_arg t dim_index ;;
                        d <- reduce_dim t dim_index ;;
                        Ok (For a (IntImm 0) d s))
                     s ;;
              match init_expr with
              | Some ie =>
                let init := Store (buf t) indices (Some ie) (IntImm 1) in
                Ok (Block [init; s])
              | None => Ok s
              end
            else Ok s) ;;
      for_upto (ndim t)
        (fun i s =>
           let dim_index := ndim t - i - 1 in
           a <- arg t dim_index ;;
           d <- dim t dim_index ;;
           Ok (For a (IntImm 0) d s))
        s
  end.

(** ** The loop nest the specification describes *)

(** [loop_nest vars extents s]: one [For] from 0 to the extent per axis,
    the first axis outermost and the last innermost, around [s]. *)
Fixpoint loop_nest (vars : list Var) (extents : list Expr) (s : Stmt) : Stmt :=
  match vars, extents with
  | v :: vars', d :: extents' => For v (IntImm 0) d (loop_nest vars' extents' s)
  | _, _ => s
  end.

(** Number of [For] nodes on the spine of a statement. *)
Fixpoint loop_depth (s : Stmt) : nat :=
  match s with
  | For _ _ _ b => S (loop_depth b)
  | _ => 0
  end.

(** The statement under the [For] spine. *)
Fixpoint loop_core (s : Stmt) : Stmt :=
  match s with
  | For _ _ _ b => loop_core b
  | _ => s
  end.

Definition is_Store (s : Stmt) : bool :=
  match s with Store _ _ _ _ => true | _ => false end.

(** ** Builders *)

(** What a builder does besides computing its result: it allocates index
    variables, invokes the body callable, allocates the tensor.  The
    trace records these in order; [next_var_id] is the allocator of
    variable identities. *)
Inductive Event : Type :=
| EvNewVar (v : Var)
| EvInvoke (params : list Var)
| EvNewTensor (t : Tensor).

Record BuildState : Type := mkBuildState {
  next_var_id : nat;
  trace : list Event
}.

(** Code that allocates threads the allocator's state and may raise; a
    raised exception leaves the state as it was when raised. *)
Definition ST (S A : Type) : Type := S -> result A * S.

Definition retS {S A : Type} (a : A) : ST S A := fun st => (Ok a, st).

Definition throwS {S A : Type} (e : exn) : ST S A := fun st => (Throw e, st).

Definition bindS {S A B : Type} (m : ST S A) (k : A -> ST S B) : ST S B :=
  fun st =>
    match m st with
    | (Ok a, st') => k a st'
    | (Throw e, st') => (Throw e, st')
    end.

Definition liftR {S A : Type} (r : result A) : ST S A := fun st => (r, st).

Declare Scope st_scope.
Delimit Scope st_scope with st.
Bind Scope st_scope with ST.
Notation "x <- m ;; k" := (bindS m%st (fun x => k%st))
  (at level 100, m at next level, right associativity) : st_scope.
Notation "' p <- m ;; k" :=
  (bindS m%st (fun x => match x with p => k%st end))
  (at level 100, p pattern, m at next level, right associativity) : st_scope.
Arguments bindS {S A B} (m k)%_st.

(** [for (size_t i = 0; i < n; i++) { s = body(i, s); }] in allocating
    code. *)
Definition for_uptoS {S A : Type} (n : nat) (body : nat -> A -> ST S A) (a : A)
  : ST S A :=
  fold_left (fun acc i => (x <- acc ;; body i x)%st) (seq 0 n) (retS a).

Definition Build (A : Type) : Type := ST BuildState A.
Bind Scope st_scope with Build.

Definition log (ev : Event) : Build unit :=
  fun st => (Ok tt, mkBuildState (next_var_id st) (trace st ++ [ev])).

(** [new Var(name_hint, kInt)] *)
Definition new_Var (name_hint : option string) : Build Var :=
  fun st =>
    let v := mkVar name_hint (next_var_id st) in
    (Ok v, mkBuildState (S (next_var_id st)) (trace st ++ [EvNewVar v])).

(** Modelled from the spec: [DimArg] is declared outside [tensor.cpp]: a
    loop extent expression with an optional name. *)
Record DimArg : Type := mkDimArg {
  extent : Expr;
  name : option string
}.

(** Modelled from the spec: [unpack_dim_args] is declared outside
    [tensor.cpp].  Given an ordered sequence of [DimArg] it produces a
    parallel sequence of extents and a parallel sequence of freshly
    allocated index variables, index for index. *)
Fixpoint unpack_loop (dim_args : list DimArg) (dims : list Expr)
    (vars : list Var) : Build (list Expr * list Var) :=
  match dim_args with
  | [] => retS (dims, vars)
  | dim_arg :: rest =>
    v <- new_Var (name dim_arg) ;;
    unpack_loop rest (dims ++ [extent dim_arg]) (vars ++ [v])
  end.

Definition unpack_dim_args (dim_args : list DimArg)
  : Build (list Expr * list Var) :=
  unpack_loop dim_args [] [].

(** Invocation of a body callable: the callable is a pure function of the
    index variables it receives; the call itself is recorded. *)
Definition invoke {A : Type} (f : list Var -> A) (params : list Var)
  : Build A :=
  _ <- log (EvInvoke params) ;;
  retS (f params).

(** Modelled from the spec: the constructor [Tensor(name, dims, args, body)]
    is declared outside [tensor.cpp]; it makes the backing buffer
    from the name and the extents, without initializer, and leaves the
    reduction axes empty. *)
Definition Tensor_of_body (func_name : string) (dims : list Expr)
    (args : list Var) (body : Expr) : Tensor :=
  mkTensor (mkBuf func_name dims None) args (Some body) [] [].

(** [new Tensor(...)] *)
Definition new_Tensor (t : Tensor) : Build Tensor :=
  _ <- log (EvNewTensor t) ;;
  retS t.

(** [Compute] with a body over the vector of index variables. *)
Definition Compute (func_name : string) (dim_args : list DimArg)
    (body_func : list Var -> Expr) : Build Tensor :=
  ' (dims, args) <- unpack_dim_args dim_args ;;
  body <- invoke body_func args ;;
  new_Tensor (Tensor_of_body func_name dims args body).

(** [Compute] with a body over one index variable. *)
Definition Compute1 (func_name : string) (dim_args : list DimArg)
    (body_func : Var -> Expr) : Build Tensor :=
  if negb (length dim_args =? 1) then
    throwS (malformed_input "mismatch between body and arg size (1)")
  else
    ' (dims, args) <- unpack_dim_args dim_args ;;
    a0 <- liftR (at_ args 0) ;;
    body <- invoke (fun _ => body_func a0) [a0] ;;
    new_Tensor (Tensor_of_body func_name dims args body).

(** [Compute] with a body over two index variables. *)
Definition Compute2 (func_name : string) (dim_args : list DimArg)
    (body_func : Var -> Var -> Expr) : Build Tensor :=
  if negb (length dim_args =? 2) then
    throwS (malformed_input "mismatch between body and arg size (2)")
  else
    ' (dims, args) <- unpack_dim_args dim_args ;;
    a0 <- liftR (at_ args 0) ;;
    a1 <- liftR (at_ args 1) ;;
    body <- invoke (fun _ => body_func a0 a1) [a0; a1] ;;
    new_Tensor (Tensor_of_body func_name dims args body).

(** [Compute] with a body over three index variables. *)
Definition Compute3 (func_name : string) (dim_args : list DimArg)
    (body_func : Var -> Var -> Var -> Expr) : Build Tensor :=
  if negb (length dim_args =? 3) then
    throwS (malformed_input "mismatch between body and arg size (3)")
  else
    ' (dims, args) <- unpack_dim_args dim_args ;;
    a0 <- liftR (at_ args 0) ;;
    a1 <- liftR (at_ args 1) ;;
    a2 <- liftR (at_ args 2) ;;
    body <- invoke (fun _ => body_func a0 a1 a2) [a0; a1; a2] ;;
    new_Tensor (Tensor_of_body func_name dims args body).

(** [Compute] with a body over four index variables. *)
Definition Compute4 (func_name : string) (dim_args : list DimArg)
    (body_func : Var -> Var -> Var -> Var -> Expr) : Build Tensor :=
  if negb (length dim_args =? 4) then
    throwS (malformed_input "mismatch between body and arg size (4)")
  else
    ' (dims, args_nodes) <- unpack_dim_args dim_args ;;
    let args := args_nodes in
    a0 <- liftR (at_ args 0) ;;
    a1 <- liftR (at_ args 1) ;;
    a2 <- liftR (at_ args 2) ;;
    a3 <- liftR (at_ args 3) ;;
    body <- invoke (fun _ => body_func a0 a1 a2 a3) [a0; a1; a2; a3] ;;
    new_Tensor (Tensor_of_body func_name dims args_nodes body).

(** The arity-specialised entry points, selected by the type of the body
    callable (overload resolution in the source). *)
Inductive BodyFunc : Type :=
| Body1 (f : Var -> Expr)
| Body2 (f : Var -> Var -> Expr)
| Body3 (f : Var -> Var -> Var -> Expr)
| Body4 (f : Var -> Var -> Var -> Var -> Expr).

Definition arity (b : BodyFunc) : nat :=
  match b with
  | Body1 _ => 1
  | Body2 _ => 2
  | Body3 _ => 3
  | Body4 _ => 4
  end.

Definition Compute_arity (func_name : string) (dim_args : list DimArg)
    (b : BodyFunc) : Build Tensor :=
  match b with
  | Body1 f => Compute1 func_name dim_args f
  | Body2 f => Compute2 func_name dim_args f
  | Body3 f => Compute3 func_name dim_args f
  | Body4 f => Compute4 func_name dim_args f
  end.

(** The message of the arity check of each entry point. *)
Definition arity_message (b : BodyFunc) : string :=
  match b with
  | Body1 _ => "mismatch between body and arg size (1)"
  | Body2 _ => "mismatch between body and arg size (2)"
  | Body3 _ => "mismatch between body and arg size (3)"
  | Body4 _ => "mismatch between body and arg size (4)"
  end.

(** Whether a trace records a call of the body callable, the allocation of
    a tensor. *)
Definition is_invoke (ev : Event) : bool :=
  match ev with EvInvoke _ => true | _ => false end.

Definition is_new_tensor (ev : Event) : bool :=
  match ev with EvNewTensor _ => true | _ => false end.

(** The variables [unpack_dim_args] allocates from identity [n] on. *)
Fixpoint fresh_vars (n : nat) (dim_args : list DimArg) : list Var :=
  match dim_args with
  | [] => []
  | dim_arg :: rest => mkVar (name dim_arg) n :: fresh_vars (S n) rest
  end.

(** Modelled from the spec: [Reducer] is declared outside [tensor.cpp]:
    an initializer and a rule combining the accumulator load with
    the new value. *)
Record Reducer : Type := mkReducer {
  initializer : Expr;
  combine : Expr -> Expr -> Expr
}.

(** Modelled from the spec: the shared [Reduce] both overloads of
    [tensor.cpp] delegate to is declared outside [tensor.cpp].
    It unpacks both dimension groups, obtains the per-iteration value by
    calling the indexed read on the output variables followed by the
    reduction variables, combines it with the accumulator load of the
    output buffer, and sets the buffer's initializer from the reducer. *)
Definition Reduce_shared (func_name : string) (dim_args : list DimArg)
    (reducer : Reducer) (body_func : list Var -> Expr)
    (reduce_args : list DimArg) : Build Tensor :=
  ' (dims, vars) <- unpack_dim_args dim_args ;;
  ' (reduce_dims, reduce_vars) <- unpack_dim_args reduce_args ;;
  let all_vars := vars ++ reduce_vars in
  value <- invoke body_func all_vars ;;
  let func_result := mkBuf func_name dims (Some (initializer reducer)) in
  let accumulator := Load func_name (map EVar vars) in
  let body := combine reducer accumulator value in
  new_Tensor (mkTensor func_result vars (Some body) reduce_dims reduce_vars).

Section ValueSources.

(** The two value sources and their indexed reads, [Placeholder::load]
    and [Tensor::call], are declared outside [tensor.cpp], and so
    is the [Reduce] over an indexed-read callable that the two overloads
    of [tensor.cpp] call. *)
Variable Placeholder : Type.
Variable load : Placeholder -> list Expr -> Expr.
Variable call : Tensor -> list Expr -> Expr.
Variable Reduce_callable :
  string -> list DimArg -> Reducer -> (list Var -> Expr) -> list DimArg ->
  Build Tensor.

(** [Reduce] over a [Placeholder]. *)
Definition Reduce_Placeholder (func_name : string) (dim_args : list DimArg)
    (reducer : Reducer) (buffer : Placeholder) (reduce_args : list DimArg)
  : Build Tensor :=
  Reduce_callable func_name dim_args reducer
    (fun p => load buffer (map EVar p))
    reduce_args.

(** [Reduce] over a [Tensor]. *)
Definition Reduce_Tensor (func_name : string) (dim_args : list DimArg)
    (reducer : Reducer) (tensor : Tensor) (reduce_args : list DimArg)
  : Build Tensor :=
  Reduce_callable func_name dim_args reducer
    (fun p => call tensor (map EVar p))
    reduce_args.

End ValueSources.

(** ** Lowering with node allocation

    [new Store], [new For], [new Block] and [new IntImm] allocate a node
    each.  The arena is the list of nodes allocated so far and an address
    is a position in it.  Nodes that exist before the lowering runs (the
    tensor's variables, extents, body and initializer) are immutable and
    shared read-only; they stay embedded as values, and only the fields
    that receive a node allocated by the lowering are addresses. *)
Module Arena.

Definition addr : Type := nat.

Inductive Node : Type :=
| NIntImm (v : Z)
| NStore (b : Buf) (indices : list Expr) (value : option Expr) (mask : addr)
| NFor (v : Var) (start : addr) (stop : Expr) (body : addr)
| NBlock (stmts : list addr).

Definition heap : Type := list Node.

Definition Alloc (A : Type) : Type := ST heap A.
Bind Scope st_scope with Alloc.

(** [new T(...)]: the node goes to the next free address. *)
Definition new (n : Node) : Alloc addr :=
  fun h => (Ok (length h), h ++ [n]).

(** [Tensor::ElementStmt] *)
Definition ElementStmt (t : Tensor) : Alloc addr :=
  indices <- liftR (for_upto (Buf_ndim (buf_ t))
                      (fun i indices =>
                         (a <- at_ (args_ t) i ;;
                          Ok (indices ++ [EVar a]))%result)
                      []) ;;
  mask <- new (NIntImm 1) ;;
  update_stmt <- new (NStore (buf_ t) indices (body_ t) mask) ;;
  retS update_stmt.

(** [Tensor::lowerToStmt].  The arguments of a [new For(...)] are taken
    left to right. *)
Definition lowerToStmt (t : Tensor) : Alloc addr :=
  s <- ElementStmt t ;;
  match body t with
  | None => retS s
  | Some _ =>
    if (ndim t =? 0) && (reduce_ndim t =? 0) then retS s
    else
      let init_expr := buf_initializer (buf t) in
      let indices := map EVar (args t) in
      s <- (if 0 <? reduce_ndim t then
              s <- for_uptoS (reduce_ndim t)
                     (fun i s =>
                        let dim_index := reduce_ndim t - i - 1 in
                        a <- liftR (reduce_arg t dim_index) ;;
                        zero <- new (NIntImm 0) ;;
                        d <- liftR (reduce_dim t dim_index) ;;
                        new (NFor a zero d s))
                     s ;;
              match init_expr with
              | Some ie =>
                one <- new (NIntImm 1) ;;
                init <- new (NStore (buf t) indices (Some ie) one) ;;
                new (NBlock [init; s])
              | None => retS s
              end
            else retS s) ;;
      for_uptoS (ndim t)
        (fun i s =>
           let dim_index := ndim t - i - 1 in
           a <- liftR (arg t dim_index) ;;
           zero <- new (NIntImm 0) ;;
           d <- liftR (dim t dim_index) ;;
           new (NFor a zero d s))
        s
    end.

(** Reading the tree at an address back out of the arena. *)
Definition read_expr (h : heap) (p : addr) : option Expr :=
  match nth_error h p with
  | Some (NIntImm v) => Some (IntImm v)
  | _ => None
  end.

Fixpoint read_all {A B : Type} (f : A -> option B) (l : list A)
  : option (list B) :=
  match l with
  | [] => Some []
  | a :: l' =>
    match f a, read_all f l' with
    | Some b, Some bs => Some (b :: bs)
    | _, _ => None
    end
  end.

Fixpoint read_stmt (fuel : nat) (h : heap) (p : addr) : option Stmt :=
  match fuel with
  | 0 => None
  | S fuel' =>
    match nth_error h p with
    | Some (NStore b indices value mask) =>
      option_map (Store b indices value) (read_expr h mask)
    | Some (NFor v start stop bd) =>
      match read_expr h start, read_stmt fuel' h bd with
      | Some start', Some bd' => Some (For v start' stop bd')
      | _, _ => None
      end
    | Some (NBlock stmts) =>
      option_map Block (read_all (read_stmt fuel' h) stmts)
    | _ => None
    end
  end.

(** The addresses of the nodes of the tree at an address. *)
Fixpoint nodes (fuel : nat) (h : heap) (p : addr) : list addr :=
  match fuel with
  | 0 => []
  | S fuel' =>
    match nth_error h p with
    | Some (NIntImm _) => [p]
    | Some (NStore _ _ _ mask) => [p; mask]
    | Some (NFor _ start _ bd) => p :: start :: nodes fuel' h bd
    | Some (NBlock stmts) => p :: flat_map (nodes fuel' h) stmts
    | None => []
    end
  end.

End Arena.

(** ** Specification-side descriptions *)

(** What [lowerToStmt] returns for a tensor in functional form that is
    not a scalar: the output axes around the reduction nest, which the
    initializer precedes if there is one. *)
Definition lowered (t : Tensor) (b : Expr) : Stmt :=
  let element := Store (buf t) (map EVar (args t)) (Some b) (IntImm 1) in
  let reduction := loop_nest (reduce_args t) (reduce_dims t) element in
  let inner :=
    match reduce_dims t, buf_initializer (buf t) with
    | _ :: _, Some ie =>
      Block [Store (buf t) (map EVar (args t)) (Some ie) (IntImm 1); reduction]
    | _, _ => reduction
    end in
  loop_nest (args t) (dims t) inner.

(** The tensor an arity-specialised entry point builds. *)
Definition Compute_arity_tensor (func_name : string) (dim_args : list DimArg)
    (b : BodyFunc) (st : BuildState) : option Tensor :=
  let vars := fresh_vars (next_var_id st) dim_args in
  let mk := Tensor_of_body func_name (map extent dim_args) vars in
  match b, vars with
  | Body1 f, [a0] => Some (mk (f a0))
  | Body2 f, [a0; a1] => Some (mk (f a0 a1))
  | Body3 f, [a0; a1; a2] => Some (mk (f a0 a1 a2))
  | Body4 f, [a0; a1; a2; a3] => Some (mk (f a0 a1 a2 a3))
  | _, _ => None
  end.

(** The tree [s] stands at address [p] of the arena [h0 ++ ext], read with
    fuel [f], and all its nodes lie in [ext]. *)
Definition allocated (h0 ext : Arena.heap) (f : nat) (p : Arena.addr)
    (s : Stmt) : Prop :=
  Arena.read_stmt f (h0 ++ ext) p = Some s /\
  0 < f /\
  Forall (fun a => length h0 <= a < length (h0 ++ ext))
    (Arena.nodes f (h0 ++ ext) p).

(** An allocating run from an arena that extends [h0] simulates a result
    over trees: the same exception, or an address at which the tree
    stands, all nodes of which were allocated after [h0]. *)
Definition simulates (h0 : Arena.heap) (r : result Stmt)
    (o : result Arena.addr * Arena.heap) : Prop :=
  match r with
  | Ok s => exists p ext f, o = (Ok p, h0 ++ ext) /\ allocated h0 ext f p s
  | Throw e => exists ext, o = (Throw e, h0 ++ ext)
  end.

(** ** Example tensors *)

Definition var_i : Var := mkVar (Some "i"%string) 0.
Definition var_j : Var := mkVar (Some "j"%string) 1.
Definition var_n : Var := mkVar (Some "n"%string) 0.
Definition var_k : Var := mkVar (Some "k"%string) 1.

(** [add[i, j] = input[i, j] + 3] over [4 x 4]. *)
Definition tensor_add : Tensor :=
  mkTensor (mkBuf "add" [IntImm 4; IntImm 4] None) [var_i; var_j]
    (Some (Add (Load "input" [EVar var_i; EVar var_j]) (IntImm 3))) [] [].

(** [sum[n] = fold (+) 0 (a[n, k] for k < 8)] over [n < 5]. *)
Definition tensor_sum : Tensor :=
  mkTensor (mkBuf "sum" [IntImm 5] (Some (IntImm 0))) [var_n]
    (Some (Add (Load "sum" [EVar var_n]) (Load "a" [EVar var_n; EVar var_k])))
    [IntImm 8] [var_k].

(** The same reduction over a buffer that declares no initializer. *)
Definition tensor_sum_noinit : Tensor :=
  mkTensor (mkBuf "sum" [IntImm 5] None) [var_n]
    (Some (Add (Load "sum" [EVar var_n]) (Load "a" [EVar var_n; EVar var_k])))
    [IntImm 8] [var_k].

(** A tensor whose axes are already expanded: it has no body. *)
Definition tensor_expanded : Tensor :=
  mkTensor (mkBuf "x" [IntImm 4; IntImm 4] None) [var_i; var_j] None
    [IntImm 8] [var_k].

(** A scalar. *)
Definition tensor_scalar : Tensor :=
  mkTensor (mkBuf "c" [] None) [] (Some (IntImm 7)) [] [].

(** ** Traversals of a statement *)

(** The [For] headers of a statement (variable, start, stop), in the order
    the loops are entered. *)
Fixpoint loops (s : Stmt) : list (Var * Expr * Expr) :=
  match s with
  | Store _ _ _ _ => []
  | For v start stop b => (v, start, stop) :: loops b
  | Block stmts => flat_map loops stmts
  end.

(** The [Store] statements of a statement, in program order. *)
Fixpoint stores (s : Stmt) : list Stmt :=
  match s with
  | Store _ _ _ _ => [s]
  | For _ _ _ b => stores b
  | Block stmts => flat_map stores stmts
  end.

(** The header of the loop [lowerToStmt] makes for an axis. *)
Definition axis_loop (axis : Var * Expr) : Var * Expr * Expr :=
  (fst axis, IntImm 0, snd axis).

(** What [lowerToStmt] returns for a tensor with a body that has at least
    as many variables as axes: the loops and the element [Store] use the
    leading variables, the initializer [Store] all of them. *)
Definition lowered_surplus (t : Tensor) (b : Expr) : Stmt :=
  let element :=
    Store (buf t) (map EVar (firstn (ndim t) (args t))) (Some b) (IntImm 1) in
  let reduction := loop_nest (reduce_args t) (reduce_dims t) element in
  let inner :=
    match reduce_dims t, buf_initializer (buf t) with
    | _ :: _, Some ie =>
      Block [Store (buf t) (map EVar (args t)) (Some ie) (IntImm 1); reduction]
    | _, _ => reduction
    end in
  loop_nest (args t) (dims t) inner.

(** The number of nodes [lowerToStmt] allocates: the mask and the element
    [Store]; for a tensor with a body a literal 0 and a [For] per axis,
    and a mask, a [Store] and a [Block] for the initializer of a
    reduction. *)
Definition alloc_count (t : Tensor) : nat :=
  2 + match body t with
      | None => 0
      | Some _ =>
        2 * (ndim t + reduce_ndim t)
        + match buf_initializer (buf t) with
          | Some _ => if 0 <? reduce_ndim t then 3 else 0
          | None => 0
          end
      end.

(** A body over one to four variables, as a body over the vector of that
    many variables. *)
Definition BodyFunc_on_vector (b : BodyFunc) (params : list Var) : Expr :=
  match b, params with
  | Body1 f, [a0] => f a0
  | Body2 f, [a0; a1] => f a0 a1
  | Body3 f, [a0; a1; a2] => f a0 a1 a2
  | Body4 f, [a0; a1; a2; a3] => f a0 a1 a2 a3
  | _, _ => IntImm 0
  end.

(** ** Lists of optional tensor references

    The list-reference header that follows the NNC test in
    [test/mobile/nnc/test_nnc_backend.cpp]: the reading of an element of a
    boxed list of optional tensors as an optional tensor reference, and
    [IOptTensorRefListMaybeOwnBoxed], which gives the boxed container of a
    list that is either boxed or unboxed. *)
Module OptTensorList.

Inductive error : Type :=
| not_boxed
| bad_optional_access.

Inductive outcome (A : Type) : Type :=
| Value (a : A)
| Raise (e : error).
Arguments Value {A} a.
Arguments Raise {A} e.

(** [at::Tensor] and [at::OptionalTensorRef] are declared outside the file
    and are taken as an interface: a tensor is defined or not; an optional
    tensor reference has a value or not ([has_value]), dereferences to a
    tensor ([operator*]), converts from a tensor, and has an empty
    instance ([OptionalTensorRef{}]). *)
Class TensorRefs : Type := {
  ATensor : Type;
  defined : ATensor -> bool;
  OptionalTensorRef : Type;
  has_value : OptionalTensorRef -> bool;
  deref : OptionalTensorRef -> ATensor;
  ref_of : ATensor -> OptionalTensorRef;
  ref_none : OptionalTensorRef
}.

(** What the header relies on: the empty reference has no value; the
    reference made from a defined tensor has a value and dereferences to
    that tensor; a reference with a value dereferences to a defined
    tensor. *)
Definition lawful (ops : TensorRefs) : Prop :=
  has_value ref_none = false /\
  (forall t, defined t = true ->
             has_value (ref_of t) = true /\ deref (ref_of t) = t) /\
  (forall r, has_value r = true -> defined (deref r) = true).

Section Interface.

Context {ops : TensorRefs}.

(** [List<optional<at::Tensor>>], the boxed container: the [IValue] of an
    element is [None] for [nullopt] and a tensor otherwise. *)
Definition boxed_type : Type := list (option ATensor).

(** [IListRef<at::OptionalTensorRef>] under the two tags the file
    implements. *)
Inductive IOptTensorListRef : Type :=
| Unboxed (l : list OptionalTensorRef)
| Boxed (l : boxed_type).

Definition isBoxed (ref : IOptTensorListRef) : bool :=
  match ref with Boxed _ => true | Unboxed _ => false end.

Definition toBoxed (ref : IOptTensorListRef) : outcome boxed_type :=
  match ref with
  | Boxed l => Value l
  | Unboxed _ => Raise not_boxed
  end.

Definition size (ref : IOptTensorListRef) : nat :=
  match ref with
  | Boxed l => length l
  | Unboxed l => length l
  end.

(** [IListRefTagImpl<Boxed, at::OptionalTensorRef>::iterator_get] *)
Definition Boxed_iterator_get (element : option ATensor) : OptionalTensorRef :=
  match element with
  | Some tensor => if defined tensor then ref_of tensor else ref_none
  | None => ref_none
  end.

(** [IListRefTagImplBase<Unboxed, T>::iterator_get] *)
Definition Unboxed_iterator_get (element : OptionalTensorRef)
  : OptionalTensorRef :=
  element.

(** The elements a range-for over the list visits. *)
Definition iterate (ref : IOptTensorListRef) : list OptionalTensorRef :=
  match ref with
  | Unboxed l => map Unboxed_iterator_get l
  | Boxed l => map Boxed_iterator_get l
  end.

Record IOptTensorRefListMaybeOwnBoxed : Type := mkMaybeOwnBoxed {
  ref_ : IOptTensorListRef;
  own_ : option boxed_type
}.

(** The constructor. *)
Definition make (ref : IOptTensorListRef) : IOptTensorRefListMaybeOwnBoxed :=
  mkMaybeOwnBoxed ref
    (if negb (isBoxed ref) then
       Some (fold_left
               (fun own t =>
                  own ++ [if has_value t then Some (deref t) else None])
               (iterate ref) [])
     else None).

(** [optional<T>::value()] *)
Definition value {A : Type} (o : option A) : outcome A :=
  match o with
  | Some a => Value a
  | None => Raise bad_optional_access
  end.

(** [IOptTensorRefListMaybeOwnBoxed::get] *)
Definition get (x : IOptTensorRefListMaybeOwnBoxed) : outcome boxed_type :=
  if isBoxed (ref_ x) then toBoxed (ref_ x) else value (own_ x).

(** Two optional references that cannot be told apart: both empty, or both
    with a value and the same tensor. *)
Definition same_ref (r r' : OptionalTensorRef) : Prop :=
  has_value r = has_value r' /\
  (has_value r = true -> deref r = deref r').

End Interface.

(** An instance: a tensor is [Some] storage or undefined, and an optional
    reference wraps a tensor. *)
Definition option_refs : TensorRefs := {|
  ATensor := option nat;
  defined := fun t => match t with Some _ => true | None => false end;
  OptionalTensorRef := option nat;
  has_value := fun r => match r with Some _ => true | None => false end;
  deref := fun r => r;
  ref_of := fun t => t;
  ref_none := None
|}.

End OptTensorList.

(** A reduction whose tensor carries two variables for a buffer of one
    dimension. *)
Definition tensor_surplus : Tensor :=
  mkTensor (mkBuf "sum" [IntImm 5] (Some (IntImm 0)))
    [mkVar (Some "n"%string) 0; mkVar (Some "j"%string) 1]
    (Some (Add (Load "sum" [EVar (mkVar (Some "n"%string) 0)])
             (Load "a" [EVar (mkVar (Some "n"%string) 0);
                        EVar (mkVar (Some "k"%string) 1)])))
    [IntImm 8] [mkVar (Some "k"%string) 1].

(** * Properties *)

(** ** Vectors and loops *)

Lemma at_Ok {A : Type} (v : list A) (i : nat) (a : A) :
  nth_error v i = Some a -> at_ v i = Ok a.
Proof. unfold at_. intros ->. reflexivity. Qed.

Lemma for_upto_S {A : Type} (n : nat) (body : nat -> A -> result A) (a : A) :
  for_upto (S n) body a = (x <- for_upto n body a ;; body n x).
Proof.
  unfold for_upto. rewrite seq_S, fold_left_app. reflexivity.
Qed.

Lemma firstn_S_nth_error {A : Type} (l : list A) (n : nat) (a : A) :
  nth_error l n = Some a -> firstn (S n) l = firstn n l ++ [a].
Proof.
  revert n. induction l as [|x l IH]; intros [|n] H; simpl in *;
    try discriminate.
  - injection H as ->. reflexivity.
  - rewrite (IH _ H). reflexivity.
Qed.

Lemma skipn_nth_error {A : Type} (l : list A) (n : nat) (a : A) :
  nth_error l n = Some a -> skipn n l = a :: skipn (S n) l.
Proof.
  revert n. induction l as [|x l IH]; intros [|n] H; simpl in *;
    try discriminate.
  - injection H as ->. reflexivity.
  - apply (IH _ H).
Qed.

Lemma nth_error_in_range {A : Type} (l : list A) (n : nat) :
  n < length l -> exists a, nth_error l n = Some a.
Proof.
  intros H. destruct (nth_error l n) eqn:E; [eauto|].
  apply nth_error_None in E. lia.
Qed.

(** The index list [ElementStmt] builds: the first [n] variables. *)
Lemma ElementStmt_indices (vs : list Var) (n : nat) :
  n <= length vs ->
  for_upto n (fun i indices => a <- at_ vs i ;; Ok (indices ++ [EVar a])) []
  = Ok (map EVar (firstn n vs)).
Proof.
  induction n as [|n IH]; intros Hn.
  - reflexivity.
  - rewrite for_upto_S, IH by lia. cbn [bindR].
    destruct (nth_error_in_range vs n Hn) as [a Ha].
    rewrite (at_Ok _ _ _ Ha). cbn [bindR].
    rewrite (firstn_S_nth_error _ _ _ Ha), map_app. reflexivity.
Qed.

(** The wrapping loop, after [m] of its [n] rounds: the last [m] axes are
    wrapped, the last one innermost. *)
Lemma wrap_rounds (vs : list Var) (ds : list Expr) (s : Stmt) (m : nat) :
  length vs = length ds ->
  m <= length ds ->
  for_upto m
    (fun i s =>
       let dim_index := length ds - i - 1 in
       a <- at_ vs dim_index ;;
       d <- at_ ds dim_index ;;
       Ok (For a (IntImm 0) d s)) s
  = Ok (loop_nest (skipn (length ds - m) vs) (skipn (length ds - m) ds) s).
Proof.
  intros Hlen. induction m as [|m IH]; intros Hm.
  - unfold for_upto. simpl. rewrite Nat.sub_0_r.
    rewrite <- Hlen at 1. rewrite !skipn_all. reflexivity.
  - rewrite for_upto_S, IH by lia. cbn [bindR].
    assert (Hv : length ds - m - 1 < length vs) by lia.
    assert (Hd : length ds - m - 1 < length ds) by lia.
    destruct (nth_error_in_range _ _ Hv) as [a Ha].
    destruct (nth_error_in_range _ _ Hd) as [d Hd'].
    rewrite (at_Ok _ _ _ Ha), (at_Ok _ _ _ Hd'). cbn [bindR].
    replace (length ds - S m) with (length ds - m - 1) by lia.
    rewrite (skipn_nth_error _ _ _ Ha), (skipn_nth_error _ _ _ Hd').
    replace (S (length ds - m - 1)) with (length ds - m) by lia.
    reflexivity.
Qed.

Lemma wrap_all (vs : list Var) (ds : list Expr) (s : Stmt) :
  length vs = length ds ->
  for_upto (length ds)
    (fun i s =>
       let dim_index := length ds - i - 1 in
       a <- at_ vs dim_index ;;
       d <- at_ ds dim_index ;;
       Ok (For a (IntImm 0) d s)) s
  = Ok (loop_nest vs ds s).
Proof.
  intros Hlen. rewrite wrap_rounds by (auto; lia).
  rewrite Nat.sub_diag. reflexivity.
Qed.

Lemma loop_nest_depth (vs : list Var) (ds : list Expr) (s : Stmt) :
  length vs = length ds ->
  loop_depth (loop_nest vs ds s) = length ds + loop_depth s.
Proof.
  revert ds. induction vs as [|v vs IH]; intros [|d ds] H; simpl in *;
    try discriminate; auto.
Qed.

Lemma loop_nest_core (vs : list Var) (ds : list Expr) (s : Stmt) :
  loop_core (loop_nest vs ds s) = loop_core s.
Proof.
  revert ds. induction vs as [|v vs IH]; intros [|d ds]; simpl; auto.
Qed.

(** ** The element statement *)

Lemma ElementStmt_wf (t : Tensor) :
  length (args t) = length (dims t) ->
  ElementStmt t = Ok (Store (buf t) (map EVar (args t)) (body t) (IntImm 1)).
Proof.
  intros H. unfold ElementStmt.
  unfold args, dims, buf in H.
  rewrite ElementStmt_indices by (unfold Buf_ndim; lia). simpl.
  unfold Buf_ndim. rewrite <- H, firstn_all. reflexivity.
Qed.

(** ** The shape of a lowered tensor *)

Lemma lowerToStmt_lowered (t : Tensor) (b : Expr) :
  Tensor_wf t ->
  body t = Some b ->
  lowerToStmt t = Ok (lowered t b).
Proof.
  intros [Ha Hr] Hb. unfold lowerToStmt.
  rewrite (ElementStmt_wf t Ha). simpl. rewrite Hb.
  unfold lowered.
  destruct ((ndim t =? 0) && (reduce_ndim t =? 0)) eqn:Hz.
  - apply andb_true_iff in Hz as [Hn Hrn].
    apply Nat.eqb_eq in Hn, Hrn.
    unfold ndim, Buf_ndim in Hn. unfold reduce_ndim in Hrn.
    unfold dims in *. unfold reduce_dims in *.
    apply length_zero_iff_nil in Hn, Hrn. rewrite Hn, Hrn in *.
    destruct (args t); [|discriminate].
    destruct (reduce_args t); [|discriminate].
    reflexivity.
  - unfold reduce_arg, reduce_dim, arg, dim.
    unfold reduce_ndim, ndim, Buf_ndim.
    change (reduce_dims_ t) with (reduce_dims t).
    change (buf_dims (buf t)) with (dims t).
    destruct (0 <? length (reduce_dims t)) eqn:Hpos.
    + rewrite (wrap_all _ _ _ Hr). simpl.
      apply Nat.ltb_lt in Hpos.
      destruct (reduce_dims t) as [|rd rds] eqn:Erd; [simpl in Hpos; lia|].
      destruct (buf_initializer (buf t)); simpl; apply (wrap_all _ _ _ Ha).
    + apply Nat.ltb_ge in Hpos.
      assert (Hnil : reduce_dims t = []).
      { apply length_zero_iff_nil. lia. }
      rewrite Hnil in *. simpl.
      destruct (reduce_args t); [|discriminate]. simpl.
      apply (wrap_all _ _ _ Ha).
Qed.

(** ** Claims on the lowering *)

(** C1. A tensor with a body, at least one output axis and no reduction
    axis lowers to the nest of [For] loops around the element [Store]: one
    loop per output axis from 0 to the extent of the axis, the first
    declared axis outermost and the last declared innermost.  For extents
    [I, J] and variables [i, j] this is
    [For(i, 0, I, For(j, 0, J, Store(buf, [i, j], body)))]. *)
Theorem lowerToStmt_loop_order (t : Tensor) (b : Expr) :
  Tensor_wf t ->
  body t = Some b ->
  0 < ndim t ->
  reduce_ndim t = 0 ->
  lowerToStmt t
  = Ok (loop_nest (args t) (dims t)
          (Store (buf t) (map EVar (args t)) (Some b) (IntImm 1)))
  /\ (forall s, lowerToStmt t = Ok s ->
        loop_depth s = ndim t /\
        loop_core s = Store (buf t) (map EVar (args t)) (Some b) (IntImm 1))
  /\ (forall I J i j,
        dims t = [I; J] -> args t = [i; j] ->
        lowerToStmt t
        = Ok (For i (IntImm 0) I
                (For j (IntImm 0) J
                   (Store (buf t) [EVar i; EVar j] (Some b) (IntImm 1))))).
Proof.
  intros Hwf Hb Hn Hr.
  assert (Hnil : reduce_dims t = []).
  { apply length_zero_iff_nil. exact Hr. }
  assert (E : lowerToStmt t
              = Ok (loop_nest (args t) (dims t)
                      (Store (buf t) (map EVar (args t)) (Some b) (IntImm 1)))).
  { rewrite (lowerToStmt_lowered t b Hwf Hb). unfold lowered.
    destruct Hwf as [_ Hrl]. rewrite Hnil in *.
    destruct (reduce_args t); [reflexivity | discriminate]. }
  split; [exact E|]. split.
  - intros s Hs. rewrite E in Hs. injection Hs as <-.
    rewrite loop_nest_depth by apply Hwf.
    rewrite loop_nest_core. simpl. split; [|reflexivity].
    unfold ndim, Buf_ndim, dims. lia.
  - intros I J i j Hd Ha. rewrite E, Hd, Ha. reflexivity.
Qed.

Lemma lowerToStmt_loop_order_witness :
  Tensor_wf tensor_add /\
  0 < ndim tensor_add /\
  reduce_ndim tensor_add = 0 /\
  lowerToStmt tensor_add
  = Ok (For var_i (IntImm 0) (IntImm 4)
          (For var_j (IntImm 0) (IntImm 4)
             (Store (buf tensor_add) [EVar var_i; EVar var_j]
                (Some (Add (Load "input" [EVar var_i; EVar var_j]) (IntImm 3)))
                (IntImm 1)))).
Proof.
  assert (Hwf : Tensor_wf tensor_add) by (split; reflexivity).
  assert (Hn : 0 < ndim tensor_add) by (vm_compute; lia).
  split; [exact Hwf|]. split; [exact Hn|]. split; [reflexivity|].
  apply (lowerToStmt_loop_order tensor_add _ Hwf eq_refl Hn eq_refl);
    reflexivity.
Defined.

(** C2. A tensor with a body, at least one reduction axis and a buffer
    that declares an initializer lowers to the output loop nest around a
    [Block] of two statements: first the [Store] of the initializer at the
    tensor's dimension variables, then the reduction loop nest (one [For]
    per reduction axis from 0 to its extent, last declared innermost)
    around the element [Store].  The initializer [Store] is a sibling of
    the reduction nest, not inside it. *)
Theorem lowerToStmt_reduction_init (t : Tensor) (b ie : Expr) :
  Tensor_wf t ->
  body t = Some b ->
  0 < reduce_ndim t ->
  buf_initializer (buf t) = Some ie ->
  lowerToStmt t
  = Ok (loop_nest (args t) (dims t)
          (Block
             [Store (buf t) (map EVar (args t)) (Some ie) (IntImm 1);
              loop_nest (reduce_args t) (reduce_dims t)
                (Store (buf t) (map EVar (args t)) (Some b) (IntImm 1))]))
  /\ (forall s, lowerToStmt t = Ok s ->
        loop_depth s = ndim t /\
        exists reduction,
          loop_core s
          = Block [Store (buf t) (map EVar (args t)) (Some ie) (IntImm 1);
                   reduction] /\
          loop_depth reduction = reduce_ndim t /\
          loop_core reduction
          = Store (buf t) (map EVar (args t)) (Some b) (IntImm 1)).
Proof.
  intros Hwf Hb Hr Hi.
  assert (E : lowerToStmt t
              = Ok (loop_nest (args t) (dims t)
                      (Block
                         [Store (buf t) (map EVar (args t)) (Some ie)
                            (IntImm 1);
                          loop_nest (reduce_args t) (reduce_dims t)
                            (Store (buf t) (map EVar (args t)) (Some b)
                               (IntImm 1))]))).
  { rewrite (lowerToStmt_lowered t b Hwf Hb). unfold lowered.
    unfold reduce_ndim in Hr.
    change (reduce_dims_ t) with (reduce_dims t) in Hr.
    rewrite Hi. destruct (reduce_dims t); [simpl in Hr; lia | reflexivity]. }
  split; [exact E|].
  intros s Hs. rewrite E in Hs. injection Hs as <-.
  destruct Hwf as [Ha Hrd].
  rewrite loop_nest_depth, loop_nest_core by assumption. simpl.
  split; [unfold ndim, Buf_ndim, dims; lia|].
  eexists. split; [reflexivity|].
  rewrite loop_nest_depth, loop_nest_core by assumption. simpl.
  split; [|reflexivity].
  unfold reduce_ndim, reduce_dims. lia.
Qed.

Lemma lowerToStmt_reduction_init_witness :
  Tensor_wf tensor_sum /\
  0 < reduce_ndim tensor_sum /\
  lowerToStmt tensor_sum
  = Ok (For var_n (IntImm 0) (IntImm 5)
          (Block
             [Store (buf tensor_sum) [EVar var_n] (Some (IntImm 0)) (IntImm 1);
              For var_k (IntImm 0) (IntImm 8)
                (Store (buf tensor_sum) [EVar var_n]
                   (Some (Add (Load "sum" [EVar var_n])
                            (Load "a" [EVar var_n; EVar var_k])))
                   (IntImm 1))])).
Proof.
  assert (Hwf : Tensor_wf tensor_sum) by (split; reflexivity).
  assert (Hr : 0 < reduce_ndim tensor_sum) by (vm_compute; lia).
  split; [exact Hwf|]. split; [exact Hr|].
  apply (lowerToStmt_reduction_init tensor_sum _ _ Hwf eq_refl Hr eq_refl).
Defined.

(** C4. A tensor without body lowers to exactly what [ElementStmt]
    produces, whatever axes it declares: a single [Store], with no [For]
    and no [Block] around it. *)
Theorem lowerToStmt_expanded (t : Tensor) :
  body t = None ->
  lowerToStmt t = ElementStmt t
  /\ (forall s, lowerToStmt t = Ok s -> is_Store s = true)
  /\ (ndim t <= length (args t) ->
      lowerToStmt t
      = Ok (Store (buf t) (map EVar (firstn (ndim t) (args t))) None
              (IntImm 1))).
Proof.
  intros Hb.
  assert (E : lowerToStmt t = ElementStmt t).
  { unfold lowerToStmt. rewrite Hb. destruct (ElementStmt t); reflexivity. }
  split; [exact E|]. split.
  - intros s. rewrite E. unfold ElementStmt.
    destruct (for_upto _ _ _); simpl; [|discriminate].
    intros H. injection H as <-. reflexivity.
  - intros Hn. rewrite E. unfold ElementStmt.
    unfold ndim, args, buf in *.
    rewrite ElementStmt_indices by exact Hn. simpl.
    unfold body in Hb. rewrite Hb. reflexivity.
Qed.

Lemma lowerToStmt_expanded_witness :
  body tensor_expanded = None /\
  lowerToStmt tensor_expanded = ElementStmt tensor_expanded /\
  lowerToStmt tensor_expanded
  = Ok (Store (buf tensor_expanded) [EVar var_i; EVar var_j] None (IntImm 1)).
Proof.
  split; [reflexivity|].
  destruct (lowerToStmt_expanded tensor_expanded eq_refl) as [E [_ H]].
  split; [exact E|]. apply H. vm_compute. lia.
Defined.

(** C5. A tensor with a body, no output axis and no reduction axis lowers
    to a bare [Store] with an empty index list and no [For] around it. *)
Theorem lowerToStmt_scalar (t : Tensor) (b : Expr) :
  body t = Some b ->
  ndim t = 0 ->
  reduce_ndim t = 0 ->
  lowerToStmt t = Ok (Store (buf t) [] (Some b) (IntImm 1)).
Proof.
  intros Hb Hn Hr. unfold lowerToStmt, ElementStmt.
  unfold ndim, buf in Hn. rewrite Hn. unfold for_upto. simpl.
  rewrite Hb. unfold ndim, buf. rewrite Hn, Hr. simpl.
  unfold body in Hb. rewrite Hb. reflexivity.
Qed.

Lemma lowerToStmt_scalar_witness :
  body tensor_scalar = Some (IntImm 7) /\
  ndim tensor_scalar = 0 /\
  reduce_ndim tensor_scalar = 0 /\
  lowerToStmt tensor_scalar
  = Ok (Store (buf tensor_scalar) [] (Some (IntImm 7)) (IntImm 1)).
Proof.
  repeat (split; [reflexivity|]).
  apply (lowerToStmt_scalar tensor_scalar _ eq_refl eq_refl eq_refl).
Defined.

(** C10. A tensor with a body and at least one reduction axis whose buffer
    declares no initializer lowers without initializer [Store] and without
    [Block]: the output loops wrap the reduction loops, which wrap the
    element [Store]. *)
Theorem lowerToStmt_reduction_noinit (t : Tensor) (b : Expr) :
  Tensor_wf t ->
  body t = Some b ->
  0 < reduce_ndim t ->
  buf_initializer (buf t) = None ->
  lowerToStmt t
  = Ok (loop_nest (args t) (dims t)
          (loop_nest (reduce_args t) (reduce_dims t)
             (Store (buf t) (map EVar (args t)) (Some b) (IntImm 1))))
  /\ (forall s, lowerToStmt t = Ok s ->
        loop_depth s = ndim t + reduce_ndim t /\
        loop_core s = Store (buf t) (map EVar (args t)) (Some b) (IntImm 1)).
Proof.
  intros Hwf Hb Hr Hi.
  assert (E : lowerToStmt t
              = Ok (loop_nest (args t) (dims t)
                      (loop_nest (reduce_args t) (reduce_dims t)
                         (Store (buf t) (map EVar (args t)) (Some b)
                            (IntImm 1))))).
  { rewrite (lowerToStmt_lowered t b Hwf Hb). unfold lowered.
    rewrite Hi. destruct (reduce_dims t); reflexivity. }
  split; [exact E|].
  intros s Hs. rewrite E in Hs. injection Hs as <-.
  destruct Hwf as [Ha Hrd].
  rewrite !loop_nest_depth, !loop_nest_core by assumption. simpl.
  split; [|reflexivity].
  unfold ndim, Buf_ndim, reduce_ndim, dims, reduce_dims. lia.
Qed.

Lemma lowerToStmt_reduction_noinit_witness :
  Tensor_wf tensor_sum_noinit /\
  0 < reduce_ndim tensor_sum_noinit /\
  buf_initializer (buf tensor_sum_noinit) = None /\
  lowerToStmt tensor_sum_noinit
  = Ok (For var_n (IntImm 0) (IntImm 5)
          (For var_k (IntImm 0) (IntImm 8)
             (Store (buf tensor_sum_noinit) [EVar var_n]
                (Some (Add (Load "sum" [EVar var_n])
                         (Load "a" [EVar var_n; EVar var_k])))
                (IntImm 1)))).
Proof.
  assert (Hwf : Tensor_wf tensor_sum_noinit) by (split; reflexivity).
  assert (Hr : 0 < reduce_ndim tensor_sum_noinit) by (vm_compute; lia).
  split; [exact Hwf|]. split; [exact Hr|]. split; [reflexivity|].
  apply (lowerToStmt_reduction_noinit tensor_sum_noinit _ Hwf eq_refl Hr
           eq_refl).
Defined.

(** ** Dimension unpacking *)

Lemma fresh_vars_length (n : nat) (dim_args : list DimArg) :
  length (fresh_vars n dim_args) = length dim_args.
Proof.
  revert n. induction dim_args as [|d ds IH]; intros n; simpl; auto.
Qed.

Lemma fresh_vars_ids (n : nat) (dim_args : list DimArg) :
  map var_id (fresh_vars n dim_args) = seq n (length dim_args).
Proof.
  revert n. induction dim_args as [|d ds IH]; intros n; simpl;
    [|rewrite IH]; reflexivity.
Qed.

Lemma fresh_vars_names (n : nat) (dim_args : list DimArg) :
  map var_name_hint (fresh_vars n dim_args) = map name dim_args.
Proof.
  revert n. induction dim_args as [|d ds IH]; intros n; simpl;
    [|rewrite IH]; reflexivity.
Qed.

Lemma unpack_loop_run (dim_args : list DimArg) :
  forall (dims : list Expr) (vars : list Var) (st : BuildState),
    unpack_loop dim_args dims vars st
    = (Ok (dims ++ map extent dim_args,
           vars ++ fresh_vars (next_var_id st) dim_args),
       mkBuildState (next_var_id st + length dim_args)
         (trace st ++ map EvNewVar (fresh_vars (next_var_id st) dim_args))).
Proof.
  induction dim_args as [|d ds IH]; intros dims vars st.
  - simpl. unfold retS. rewrite !app_nil_r, Nat.add_0_r.
    destruct st; reflexivity.
  - simpl. unfold bindS, new_Var. rewrite IH. simpl.
    rewrite <- !app_assoc. simpl.
    replace (S (next_var_id st + length ds))
      with (next_var_id st + S (length ds)) by lia.
    reflexivity.
Qed.

Lemma unpack_dim_args_run (dim_args : list DimArg) (st : BuildState) :
  unpack_dim_args dim_args st
  = (Ok (map extent dim_args, fresh_vars (next_var_id st) dim_args),
     mkBuildState (next_var_id st + length dim_args)
       (trace st ++ map EvNewVar (fresh_vars (next_var_id st) dim_args))).
Proof. unfold unpack_dim_args. rewrite unpack_loop_run. reflexivity. Qed.

(** ** Builders *)

(** Runs a builder on a state, up to its call of [unpack_dim_args]. *)
Ltac run_build :=
  unfold invoke, new_Tensor, log, liftR, bindS, retS, throwS; cbv beta;
  repeat (rewrite unpack_dim_args_run; cbv beta iota);
  cbn [next_var_id trace].

Lemma Compute_run (func_name : string) (dim_args : list DimArg)
    (body_func : list Var -> Expr) (st : BuildState) :
  let vars := fresh_vars (next_var_id st) dim_args in
  let t := Tensor_of_body func_name (map extent dim_args) vars
             (body_func vars) in
  Compute func_name dim_args body_func st
  = (Ok t,
     mkBuildState (next_var_id st + length dim_args)
       (trace st ++ map EvNewVar vars ++ [EvInvoke vars; EvNewTensor t])).
Proof.
  intros vars t. unfold Compute. run_build.
  rewrite <- !app_assoc. reflexivity.
Qed.

Lemma arity_check_fails (n k : nat) : n <> k -> negb (n =? k) = true.
Proof. intros H. apply negb_true_iff, Nat.eqb_neq, H. Qed.

Lemma arity_check_passes (n k : nat) : n = k -> negb (n =? k) = false.
Proof. intros H. apply negb_false_iff, Nat.eqb_eq, H. Qed.

Lemma Compute_arity_mismatch (func_name : string) (dim_args : list DimArg)
    (b : BodyFunc) (st : BuildState) :
  length dim_args <> arity b ->
  Compute_arity func_name dim_args b st
  = (Throw (malformed_input (arity_message b)), st).
Proof.
  intros H.
  destruct b; simpl in *;
    unfold Compute1, Compute2, Compute3, Compute4;
    rewrite (arity_check_fails _ _ H); reflexivity.
Qed.

Lemma Compute_arity_match (func_name : string) (dim_args : list DimArg)
    (b : BodyFunc) (st : BuildState) :
  length dim_args = arity b ->
  exists t,
    Compute_arity_tensor func_name dim_args b st = Some t /\
    Compute_arity func_name dim_args b st
    = (Ok t,
       mkBuildState (next_var_id st + arity b)
         (trace st
            ++ map EvNewVar (fresh_vars (next_var_id st) dim_args)
            ++ [EvInvoke (fresh_vars (next_var_id st) dim_args);
                EvNewTensor t])).
Proof.
  intros H.
  destruct b; simpl in H;
    unfold Compute_arity, Compute1, Compute2, Compute3, Compute4;
    rewrite (arity_check_passes _ _ H);
    run_build; rewrite H;
    unfold Compute_arity_tensor;
    repeat (destruct dim_args as [|? dim_args]; try discriminate H);
    simpl; eexists; (split; [reflexivity|]);
    rewrite <- !app_assoc; reflexivity.
Qed.

Lemma filter_invoke_new_vars (vars : list Var) :
  filter is_invoke (map EvNewVar vars) = [].
Proof. induction vars as [|v vs IH]; simpl; auto. Qed.

Lemma fresh_vars_NoDup (n : nat) (dim_args : list DimArg) :
  NoDup (fresh_vars n dim_args).
Proof.
  apply (NoDup_map_inv var_id). rewrite fresh_vars_ids. apply seq_NoDup.
Qed.

Lemma fresh_vars_above (n : nat) (dim_args : list DimArg) (v : Var) :
  In v (fresh_vars n dim_args) -> n <= var_id v.
Proof.
  intros H. apply (in_map var_id) in H. rewrite fresh_vars_ids in H.
  apply in_seq in H. lia.
Qed.

Lemma Tensor_of_body_wf (func_name : string) (dims : list Expr)
    (args : list Var) (body : Expr) :
  length args = length dims ->
  Tensor_wf (Tensor_of_body func_name dims args body).
Proof. intros H. split; [exact H | reflexivity]. Qed.

(** The builders establish the invariants of the data model. *)
Lemma Compute_builds_wf (func_name : string) (dim_args : list DimArg)
    (body_func : list Var -> Expr) (st st' : BuildState) (t : Tensor) :
  Compute func_name dim_args body_func st = (Ok t, st') -> Tensor_wf t.
Proof.
  rewrite Compute_run. cbv zeta. intros H. injection H as <- _.
  apply Tensor_of_body_wf.
  rewrite fresh_vars_length, length_map. reflexivity.
Qed.

Lemma Compute_arity_builds_wf (func_name : string) (dim_args : list DimArg)
    (b : BodyFunc) (st st' : BuildState) (t : Tensor) :
  Compute_arity func_name dim_args b st = (Ok t, st') -> Tensor_wf t.
Proof.
  intros H.
  destruct (Nat.eq_dec (length dim_args) (arity b)) as [Heq|Hne].
  - destruct (Compute_arity_match func_name dim_args b st Heq)
      as [t' [Ht' E]].
    rewrite E in H. injection H as <- _.
    unfold Compute_arity_tensor in Ht'.
    assert (Hwf : forall bd,
               Tensor_wf (Tensor_of_body func_name (map extent dim_args)
                            (fresh_vars (next_var_id st) dim_args) bd)).
    { intros bd. apply Tensor_of_body_wf.
      rewrite fresh_vars_length, length_map. reflexivity. }
    destruct b; destruct (fresh_vars _ _) as [|? [|? [|? [|? [|? ?]]]]];
      try discriminate Ht'; injection Ht' as <-; apply Hwf.
  - rewrite (Compute_arity_mismatch _ _ _ _ Hne) in H. discriminate H.
Qed.

(** ** Claims on the builders *)

(** C3. Each of the four arity-specialised [Compute] entry points (arity
    1, 2, 3, 4) raises malformed-input when the number of dimensions
    differs from its arity, before the body callable is invoked (nothing
    is allocated and nothing is called); with exactly that many dimensions
    it returns a tensor with that many output axes and no reduction
    axis. *)
Theorem Compute_arity_validation (func_name : string)
    (dim_args : list DimArg) (b : BodyFunc) (st : BuildState) :
  In (arity b) [1; 2; 3; 4]
  /\ (length dim_args <> arity b ->
      Compute_arity func_name dim_args b st
      = (Throw (malformed_input (arity_message b)), st)
      /\ filter is_invoke (trace (snd (Compute_arity func_name dim_args b st)))
         = filter is_invoke (trace st))
  /\ (length dim_args = arity b ->
      exists t st',
        Compute_arity func_name dim_args b st = (Ok t, st') /\
        ndim t = arity b /\
        reduce_ndim t = 0 /\
        reduce_dims t = [] /\
        reduce_args t = []).
Proof.
  split; [destruct b; simpl; tauto|]. split.
  - intros H. rewrite (Compute_arity_mismatch _ _ _ _ H).
    split; reflexivity.
  - intros H.
    destruct (Compute_arity_match func_name dim_args b st H) as [t [Ht E]].
    exists t. eexists. split; [exact E|].
    unfold Compute_arity_tensor in Ht.
    destruct b; simpl in H;
      repeat (destruct dim_args as [|? dim_args]; try discriminate H);
      simpl in Ht; injection Ht as <-; repeat split; reflexivity.
Qed.

Lemma Compute_arity_validation_witness :
  (Compute_arity "t" [mkDimArg (IntImm 4) None]
     (Body2 (fun i j => Add (EVar i) (EVar j))) (mkBuildState 0 [])
   = (Throw (malformed_input "mismatch between body and arg size (2)"),
      mkBuildState 0 []))
  /\ (exists t st',
        Compute_arity "t" [mkDimArg (IntImm 4) None; mkDimArg (IntImm 5) None]
          (Body2 (fun i j => Add (EVar i) (EVar j))) (mkBuildState 0 [])
        = (Ok t, st') /\
        ndim t = 2 /\ reduce_ndim t = 0 /\
        reduce_dims t = [] /\ reduce_args t = []).
Proof.
  split.
  - apply (Compute_arity_validation "t" [mkDimArg (IntImm 4) None]
             (Body2 (fun i j => Add (EVar i) (EVar j))) (mkBuildState 0 [])).
    simpl. discriminate.
  - apply (Compute_arity_validation "t"
             [mkDimArg (IntImm 4) None; mkDimArg (IntImm 5) None]
             (Body2 (fun i j => Add (EVar i) (EVar j))) (mkBuildState 0 [])).
    reflexivity.
Defined.

(** C8. When the arity check of a builder fails the call raises: no
    tensor is returned, no tensor and no variable is allocated and the
    body callable is not invoked (the state is the one the call started
    from); the same call fails with the same error whenever it is
    repeated. *)
Theorem Compute_arity_failure (func_name : string) (dim_args : list DimArg)
    (b : BodyFunc) (st : BuildState) :
  length dim_args <> arity b ->
  (forall t st', Compute_arity func_name dim_args b st <> (Ok t, st'))
  /\ snd (Compute_arity func_name dim_args b st) = st
  /\ filter is_new_tensor (trace (snd (Compute_arity func_name dim_args b st)))
     = filter is_new_tensor (trace st)
  /\ filter is_invoke (trace (snd (Compute_arity func_name dim_args b st)))
     = filter is_invoke (trace st)
  /\ (forall st2,
        fst (Compute_arity func_name dim_args b st2)
        = fst (Compute_arity func_name dim_args b st))
  /\ Compute_arity func_name dim_args b
       (snd (Compute_arity func_name dim_args b st))
     = Compute_arity func_name dim_args b st.
Proof.
  intros H.
  assert (E := fun s => Compute_arity_mismatch func_name dim_args b s H).
  repeat rewrite (E st). cbn [fst snd]. repeat rewrite (E st).
  repeat split; try reflexivity.
  - intros t st'. discriminate.
  - intros st2. rewrite E. reflexivity.
Qed.

Lemma Compute_arity_failure_witness :
  length [mkDimArg (IntImm 4) None; mkDimArg (IntImm 5) None]
  <> arity (Body3 (fun i j k => Add (EVar i) (Add (EVar j) (EVar k))))
  /\ snd (Compute_arity "t"
            [mkDimArg (IntImm 4) None; mkDimArg (IntImm 5) None]
            (Body3 (fun i j k => Add (EVar i) (Add (EVar j) (EVar k))))
            (mkBuildState 7 []))
     = mkBuildState 7 [].
Proof.
  assert (H : length [mkDimArg (IntImm 4) None; mkDimArg (IntImm 5) None]
              <> arity (Body3 (fun i j k =>
                                 Add (EVar i) (Add (EVar j) (EVar k)))))
    by (simpl; discriminate).
  split; [exact H|].
  apply (Compute_arity_failure "t"
           [mkDimArg (IntImm 4) None; mkDimArg (IntImm 5) None]
           (Body3 (fun i j k => Add (EVar i) (Add (EVar j) (EVar k))))
           (mkBuildState 7 []) H).
Defined.

(** C9. [Compute] with a body over the vector of index variables checks no
    arity: for every dimension list it returns a tensor (it never raises),
    having invoked the callable once, on exactly as many variables as
    there are dimensions, all allocated by this call and pairwise
    distinct; the tensor has as many output axes as there are
    dimensions. *)
Theorem Compute_vector_no_arity_check (func_name : string)
    (dim_args : list DimArg) (body_func : list Var -> Expr)
    (st : BuildState) :
  exists t st',
    Compute func_name dim_args body_func st = (Ok t, st') /\
    ndim t = length dim_args /\
    length (args t) = length dim_args /\
    NoDup (args t) /\
    (forall v, In v (args t) -> next_var_id st <= var_id v < next_var_id st') /\
    body t = Some (body_func (args t)) /\
    trace st'
    = trace st ++ map EvNewVar (args t) ++ [EvInvoke (args t); EvNewTensor t] /\
    filter is_invoke (trace st')
    = filter is_invoke (trace st) ++ [EvInvoke (args t)].
Proof.
  eexists. eexists. split; [apply Compute_run|].
  cbn [args args_ Tensor_of_body ndim buf buf_ Buf_ndim buf_dims body body_
       next_var_id trace].
  unfold ndim, Buf_ndim, Tensor_of_body. cbn [buf buf_ buf_dims].
  rewrite length_map, fresh_vars_length.
  repeat split.
  - apply fresh_vars_NoDup.
  - apply (fresh_vars_above _ _ _ H).
  - apply (in_map var_id) in H. rewrite fresh_vars_ids in H.
    apply in_seq in H. lia.
  - rewrite !filter_app, filter_invoke_new_vars. reflexivity.
Qed.

(** A tensor built by [Compute] from an empty dimension list is a scalar
    and lowers to a bare [Store] with an empty index list. *)
Lemma Compute_scalar_lowers (func_name : string)
    (body_func : list Var -> Expr) (st : BuildState) :
  exists t st',
    Compute func_name [] body_func st = (Ok t, st') /\
    ndim t = 0 /\ reduce_ndim t = 0 /\
    lowerToStmt t = Ok (Store (buf t) [] (Some (body_func [])) (IntImm 1)).
Proof.
  eexists. eexists. split; [apply Compute_run|].
  repeat split.
Qed.

(** The shared [Reduce] uses the indexed read only through the one call
    it makes. *)
Lemma Reduce_shared_run (func_name : string) (dim_args : list DimArg)
    (reducer : Reducer) (body_func : list Var -> Expr)
    (reduce_args : list DimArg) (st : BuildState) :
  let vars := fresh_vars (next_var_id st) dim_args in
  let reduce_vars :=
    fresh_vars (next_var_id st + length dim_args) reduce_args in
  let t :=
    mkTensor
      (mkBuf func_name (map extent dim_args) (Some (initializer reducer)))
      vars
      (Some (combine reducer (Load func_name (map EVar vars))
               (body_func (vars ++ reduce_vars))))
      (map extent reduce_args) reduce_vars in
  Reduce_shared func_name dim_args reducer body_func reduce_args st
  = (Ok t,
     mkBuildState (next_var_id st + length dim_args + length reduce_args)
       (trace st ++ map EvNewVar vars ++ map EvNewVar reduce_vars
          ++ [EvInvoke (vars ++ reduce_vars); EvNewTensor t])).
Proof.
  intros vars reduce_vars t. unfold Reduce_shared. run_build.
  rewrite <- !app_assoc. reflexivity.
Qed.

Lemma Reduce_shared_builds_wf (func_name : string) (dim_args : list DimArg)
    (reducer : Reducer) (body_func : list Var -> Expr)
    (reduce_dim_args : list DimArg) (st st' : BuildState) (t : Tensor) :
  Reduce_shared func_name dim_args reducer body_func reduce_dim_args st
  = (Ok t, st') ->
  Tensor_wf t /\
  buf_initializer (buf t) = Some (initializer reducer) /\
  ndim t = length dim_args /\
  reduce_ndim t = length reduce_dim_args.
Proof.
  rewrite Reduce_shared_run. cbv zeta. intros H. injection H as <- _.
  unfold Tensor_wf, ndim, reduce_ndim, Buf_ndim, args, dims, reduce_args,
    reduce_dims, buf.
  cbn [buf_ args_ reduce_args_ reduce_dims_ buf_dims buf_initializer].
  rewrite !fresh_vars_length, !length_map. repeat split.
Qed.

(** C6. The two [Reduce] overloads call the same [Reduce] over an
    indexed-read callable, with the same name, dimensions, reducer and
    reduction dimensions, and differ only in the callable they pass,
    [buffer.load(p)] and [tensor->call(p)]; when the two reads give the
    same expression on every index list, the two overloads build the same
    tensor and leave the same state. *)
Theorem Reduce_overloads_agree (Placeholder : Type)
    (load : Placeholder -> list Expr -> Expr)
    (call : Tensor -> list Expr -> Expr)
    (Reduce_callable :
       string -> list DimArg -> Reducer -> (list Var -> Expr) ->
       list DimArg -> Build Tensor)
    (func_name : string) (dim_args : list DimArg) (reducer : Reducer)
    (buffer : Placeholder) (tensor : Tensor) (reduce_args : list DimArg) :
  (forall indices, load buffer indices = call tensor indices) ->
  Reduce_Placeholder Placeholder load Reduce_callable func_name dim_args
    reducer buffer reduce_args
  = Reduce_callable func_name dim_args reducer
      (fun p => load buffer (map EVar p)) reduce_args
  /\ Reduce_Tensor call Reduce_callable func_name dim_args reducer tensor
       reduce_args
     = Reduce_callable func_name dim_args reducer
         (fun p => call tensor (map EVar p)) reduce_args
  /\ Reduce_Placeholder Placeholder load Reduce_callable func_name dim_args
       reducer buffer reduce_args
     = Reduce_Tensor call Reduce_callable func_name dim_args reducer tensor
         reduce_args.
Proof.
  intros H. split; [reflexivity|]. split; [reflexivity|].
  unfold Reduce_Placeholder, Reduce_Tensor. f_equal.
  apply functional_extensionality. intros p. apply H.
Qed.

Lemma Reduce_overloads_agree_witness :
  Reduce_Placeholder Buf (fun b => Load (buf_name b)) Reduce_shared
    "sum" [mkDimArg (IntImm 5) (Some "n"%string)]
    (mkReducer (IntImm 0) Add) (buf tensor_add)
    [mkDimArg (IntImm 8) (Some "k"%string)] (mkBuildState 0 [])
  = Reduce_Tensor (fun t => Load (buf_name (buf t))) Reduce_shared
      "sum" [mkDimArg (IntImm 5) (Some "n"%string)]
      (mkReducer (IntImm 0) Add) tensor_add
      [mkDimArg (IntImm 8) (Some "k"%string)] (mkBuildState 0 []).
Proof.
  assert (H : forall indices,
             (fun b => Load (buf_name b)) (buf tensor_add) indices
             = (fun t => Load (buf_name (buf t))) tensor_add indices)
    by (intros indices; reflexivity).
  destruct (Reduce_overloads_agree Buf (fun b => Load (buf_name b))
              (fun t => Load (buf_name (buf t))) Reduce_shared
              "sum" [mkDimArg (IntImm 5) (Some "n"%string)]
              (mkReducer (IntImm 0) Add) (buf tensor_add) tensor_add
              [mkDimArg (IntImm 8) (Some "k"%string)] H) as [_ [_ E]].
  rewrite E. reflexivity.
Defined.

(** ** Lowering with node allocation *)

Lemma nth_error_extend {A : Type} (h ext : list A) (p : nat) (a : A) :
  nth_error h p = Some a -> nth_error (h ++ ext) p = Some a.
Proof.
  intros H. rewrite nth_error_app1; [exact H|].
  apply nth_error_Some. congruence.
Qed.

Lemma nth_error_new {A : Type} (h l : list A) (k : nat) :
  nth_error (h ++ l) (length h + k) = nth_error l k.
Proof.
  rewrite nth_error_app2 by lia. f_equal. lia.
Qed.

Lemma nth_error_new0 {A : Type} (h l : list A) (x : A) :
  nth_error (h ++ x :: l) (length h) = Some x.
Proof.
  replace (length h) with (length h + 0) by lia.
  rewrite nth_error_new. reflexivity.
Qed.

Lemma nth_error_new1 {A : Type} (h l : list A) (x y : A) :
  nth_error (h ++ x :: y :: l) (S (length h)) = Some y.
Proof.
  replace (S (length h)) with (length h + 1) by lia.
  rewrite nth_error_new. reflexivity.
Qed.

Lemma nth_error_new2 {A : Type} (h l : list A) (x y z : A) :
  nth_error (h ++ x :: y :: z :: l) (S (S (length h))) = Some z.
Proof.
  replace (S (S (length h))) with (length h + 2) by lia.
  rewrite nth_error_new. reflexivity.
Qed.

Lemma read_expr_extend (h ext : Arena.heap) (p : Arena.addr) (e : Expr) :
  Arena.read_expr h p = Some e -> Arena.read_expr (h ++ ext) p = Some e.
Proof.
  unfold Arena.read_expr. destruct (nth_error h p) as [n|] eqn:E;
    [|discriminate].
  rewrite (nth_error_extend _ ext _ _ E). auto.
Qed.

Lemma read_all_impl {A B : Type} (f g : A -> option B) (l : list A) :
  forall bs,
    (forall a b, In a l -> f a = Some b -> g a = Some b) ->
    Arena.read_all f l = Some bs -> Arena.read_all g l = Some bs.
Proof.
  induction l as [|a l IH]; intros bs H; simpl.
  - auto.
  - destruct (f a) as [b|] eqn:Ea; [|discriminate].
    destruct (Arena.read_all f l) as [bs'|] eqn:El; [|discriminate].
    intros E. rewrite (H a b (or_introl eq_refl) Ea).
    rewrite (IH bs'); auto. intros a' b' Hin. apply H. right. exact Hin.
Qed.

Lemma read_stmt_extend (h ext : Arena.heap) (f : nat) :
  forall (p : Arena.addr) (s : Stmt),
    Arena.read_stmt f h p = Some s ->
    Arena.read_stmt f (h ++ ext) p = Some s.
Proof.
  induction f as [|f IH]; intros p s; simpl; [discriminate|].
  destruct (nth_error h p) as [n|] eqn:E; [|discriminate].
  rewrite (nth_error_extend _ ext _ _ E).
  destruct n as [v|b idx val m|v st sp bd|ps]; try discriminate.
  - destruct (Arena.read_expr h m) as [e|] eqn:Em; [|discriminate].
    rewrite (read_expr_extend _ ext _ _ Em). auto.
  - destruct (Arena.read_expr h st) as [e|] eqn:Es; [|discriminate].
    rewrite (read_expr_extend _ ext _ _ Es).
    destruct (Arena.read_stmt f h bd) as [b'|] eqn:Eb; [|discriminate].
    rewrite (IH _ _ Eb). auto.
  - destruct (Arena.read_all (Arena.read_stmt f h) ps) as [ss|] eqn:Ea;
      [|discriminate].
    rewrite (read_all_impl _ (Arena.read_stmt f (h ++ ext)) _ _
               (fun a b _ => IH a b) Ea).
    auto.
Qed.

Lemma read_stmt_more_fuel (h : Arena.heap) (f : nat) :
  forall (f' : nat) (p : Arena.addr) (s : Stmt),
    f <= f' ->
    Arena.read_stmt f h p = Some s ->
    Arena.read_stmt f' h p = Some s.
Proof.
  induction f as [|f IH]; intros f' p s Hle; simpl; [discriminate|].
  destruct f' as [|f']; [lia|]. simpl.
  destruct (nth_error h p) as [n|]; [|discriminate].
  destruct n as [v|b idx val m|v st sp bd|ps]; try discriminate; auto.
  - destruct (Arena.read_expr h st); [|discriminate].
    destruct (Arena.read_stmt f h bd) as [b'|] eqn:Eb; [|discriminate].
    rewrite (IH f' _ _ (le_S_n _ _ Hle) Eb). auto.
  - destruct (Arena.read_all (Arena.read_stmt f h) ps) as [ss|] eqn:Ea;
      [|discriminate].
    rewrite (read_all_impl _ (Arena.read_stmt f' h) _ _
               (fun a b _ => IH f' a b (le_S_n _ _ Hle)) Ea).
    auto.
Qed.

(** An address holds at most one tree. *)
Lemma read_stmt_functional (h : Arena.heap) (f1 f2 : nat) (p : Arena.addr)
    (s1 s2 : Stmt) :
  Arena.read_stmt f1 h p = Some s1 ->
  Arena.read_stmt f2 h p = Some s2 ->
  s1 = s2.
Proof.
  intros H1 H2.
  apply (read_stmt_more_fuel h f1 (max f1 f2)) in H1; [|lia].
  apply (read_stmt_more_fuel h f2 (max f1 f2)) in H2; [|lia].
  congruence.
Qed.

Lemma nodes_extend (h ext : Arena.heap) (f : nat) :
  forall (p : Arena.addr) (s : Stmt),
    Arena.read_stmt f h p = Some s ->
    Arena.nodes f (h ++ ext) p = Arena.nodes f h p.
Proof.
  induction f as [|f IH]; intros p s; simpl; [discriminate|].
  destruct (nth_error h p) as [n|] eqn:E; [|discriminate].
  rewrite (nth_error_extend _ ext _ _ E).
  destruct n as [v|b idx val m|v st sp bd|ps]; try discriminate; auto.
  - destruct (Arena.read_expr h st); [|discriminate].
    destruct (Arena.read_stmt f h bd) as [b'|] eqn:Eb; [|discriminate].
    rewrite (IH _ _ Eb). auto.
  - destruct (Arena.read_all (Arena.read_stmt f h) ps) as [ss|] eqn:Ea;
      [|discriminate].
    intros _. f_equal.
    clear E. induction ps as [|q ps IHps] in ss, Ea |- *; simpl; [auto|].
    simpl in Ea.
    destruct (Arena.read_stmt f h q) as [sq|] eqn:Eq; [|discriminate].
    destruct (Arena.read_all (Arena.read_stmt f h) ps) as [ss'|] eqn:Ea';
      [|discriminate].
    rewrite (IH _ _ Eq), (IHps ss' eq_refl). reflexivity.
Qed.

Lemma read_stmt_S (f : nat) (h : Arena.heap) (p : Arena.addr) :
  Arena.read_stmt (S f) h p
  = match nth_error h p with
    | Some (Arena.NStore b indices value mask) =>
      option_map (Store b indices value) (Arena.read_expr h mask)
    | Some (Arena.NFor v start stop bd) =>
      match Arena.read_expr h start, Arena.read_stmt f h bd with
      | Some start', Some bd' => Some (For v start' stop bd')
      | _, _ => None
      end
    | Some (Arena.NBlock stmts) =>
      option_map Block (Arena.read_all (Arena.read_stmt f h) stmts)
    | _ => None
    end.
Proof. reflexivity. Qed.

Lemma nodes_S (f : nat) (h : Arena.heap) (p : Arena.addr) :
  Arena.nodes (S f) h p
  = match nth_error h p with
    | Some (Arena.NIntImm _) => [p]
    | Some (Arena.NStore _ _ _ mask) => [p; mask]
    | Some (Arena.NFor _ start _ bd) => p :: start :: Arena.nodes f h bd
    | Some (Arena.NBlock stmts) => p :: flat_map (Arena.nodes f h) stmts
    | None => []
    end.
Proof. reflexivity. Qed.

Lemma allocated_Store (h0 ext : Arena.heap) (b : Buf) (indices : list Expr)
    (value : option Expr) (v : Z) :
  let here := length (h0 ++ ext) in
  allocated h0 (ext ++ [Arena.NIntImm v; Arena.NStore b indices value here])
    1 (S here) (Store b indices value (IntImm v)).
Proof.
  intros here. unfold allocated. rewrite app_assoc. fold here.
  assert (E1 : nth_error
                 ((h0 ++ ext)
                    ++ [Arena.NIntImm v; Arena.NStore b indices value here])
                 (S here)
               = Some (Arena.NStore b indices value here)).
  { apply nth_error_new1. }
  assert (E0 : nth_error
                 ((h0 ++ ext)
                    ++ [Arena.NIntImm v; Arena.NStore b indices value here])
                 here
               = Some (Arena.NIntImm v)).
  { apply nth_error_new0. }
  split; [|split; [lia|]].
  - rewrite read_stmt_S, E1.
    unfold Arena.read_expr. rewrite E0. reflexivity.
  - rewrite nodes_S, E1.
    assert (Hh0 : length h0 <= here).
    { unfold here. rewrite length_app. lia. }
    rewrite length_app. fold here. simpl.
    repeat constructor; lia.
Qed.

Lemma allocated_For (h0 ext : Arena.heap) (f : nat) (p : Arena.addr)
    (s : Stmt) (a : Var) (d : Expr) :
  let here := length (h0 ++ ext) in
  allocated h0 ext f p s ->
  allocated h0 (ext ++ [Arena.NIntImm 0; Arena.NFor a here d p])
    (S f) (S here) (For a (IntImm 0) d s).
Proof.
  intros here [Hread [Hf Hnodes]]. unfold allocated.
  rewrite app_assoc. fold here.
  set (new_nodes := [Arena.NIntImm 0; Arena.NFor a here d p]).
  assert (E1 : nth_error ((h0 ++ ext) ++ new_nodes) (S here)
               = Some (Arena.NFor a here d p)).
  { apply nth_error_new1. }
  assert (E0 : nth_error ((h0 ++ ext) ++ new_nodes) here
               = Some (Arena.NIntImm 0)).
  { apply nth_error_new0. }
  split; [|split; [lia|]].
  - rewrite read_stmt_S, E1.
    unfold Arena.read_expr. rewrite E0.
    rewrite (read_stmt_extend _ new_nodes _ _ _ Hread). reflexivity.
  - rewrite nodes_S, E1.
    rewrite (nodes_extend _ new_nodes _ _ _ Hread).
    assert (Hlen : length ((h0 ++ ext) ++ new_nodes) = S (S here)).
    { rewrite length_app. fold here. simpl. lia. }
    rewrite Hlen.
    assert (Hh0 : length h0 <= here).
    { unfold here. rewrite length_app. lia. }
    constructor; [lia|]. constructor; [lia|].
    eapply Forall_impl; [|exact Hnodes].
    intros x Hx. cbv beta in Hx. fold here in Hx. lia.
Qed.

Lemma allocated_Block (h0 ext : Arena.heap) (f : nat) (p : Arena.addr)
    (s : Stmt) (b : Buf) (indices : list Expr) (ie : Expr) :
  let here := length (h0 ++ ext) in
  allocated h0 ext f p s ->
  allocated h0
    (ext ++ [Arena.NIntImm 1; Arena.NStore b indices (Some ie) here;
             Arena.NBlock [S here; p]])
    (S f) (S (S here))
    (Block [Store b indices (Some ie) (IntImm 1); s]).
Proof.
  intros here [Hread [Hf Hnodes]]. unfold allocated.
  rewrite app_assoc. fold here.
  set (new_nodes := [Arena.NIntImm 1; Arena.NStore b indices (Some ie) here;
                     Arena.NBlock [S here; p]]).
  assert (E2 : nth_error ((h0 ++ ext) ++ new_nodes) (S (S here))
               = Some (Arena.NBlock [S here; p])).
  { apply nth_error_new2. }
  assert (E1 : nth_error ((h0 ++ ext) ++ new_nodes) (S here)
               = Some (Arena.NStore b indices (Some ie) here)).
  { apply nth_error_new1. }
  assert (E0 : nth_error ((h0 ++ ext) ++ new_nodes) here
               = Some (Arena.NIntImm 1)).
  { apply nth_error_new0. }
  destruct f as [|f]; [lia|].
  split; [|split; [lia|]].
  - rewrite read_stmt_S, E2. cbn [Arena.read_all].
    rewrite (read_stmt_extend _ new_nodes _ _ _ Hread).
    rewrite read_stmt_S, E1.
    unfold Arena.read_expr. rewrite E0. reflexivity.
  - rewrite nodes_S, E2. cbn [flat_map].
    rewrite (nodes_extend _ new_nodes _ _ _ Hread).
    rewrite (nodes_S f), E1.
    assert (Hlen : length ((h0 ++ ext) ++ new_nodes) = S (S (S here))).
    { rewrite length_app. fold here. simpl. lia. }
    rewrite Hlen.
    assert (Hh0 : length h0 <= here).
    { unfold here. rewrite length_app. lia. }
    constructor; [lia|]. cbn [app].
    constructor; [lia|]. constructor; [lia|].
    rewrite app_nil_r.
    eapply Forall_impl; [|exact Hnodes].
    intros x Hx. cbv beta in Hx. fold here in Hx. lia.
Qed.

Lemma for_uptoS_S {S A : Type} (n : nat) (body : nat -> A -> ST S A) (a : A) :
  for_uptoS (S:=S) (Datatypes.S n) body a
  = (x <- for_uptoS n body a ;; body n x)%st.
Proof.
  unfold for_uptoS. rewrite seq_S, fold_left_app. reflexivity.
Qed.

Lemma sim_ret (h0 ext : Arena.heap) (f : nat) (p : Arena.addr) (s : Stmt) :
  allocated h0 ext f p s ->
  simulates h0 (Ok s) (retS p (h0 ++ ext)).
Proof. intros H. exists p, ext, f. split; [reflexivity | exact H]. Qed.

Lemma sim_bind (h0 h : Arena.heap) (r : result Stmt)
    (m : Arena.Alloc Arena.addr) (kP : Stmt -> result Stmt)
    (kA : Arena.addr -> Arena.Alloc Arena.addr) :
  simulates h0 r (m h) ->
  (forall s p ext f,
      allocated h0 ext f p s -> simulates h0 (kP s) (kA p (h0 ++ ext))) ->
  simulates h0 (x <- r ;; kP x) ((x <- m ;; kA x)%st h).
Proof.
  intros H K. destruct r as [s|e]; simpl in *.
  - destruct H as (p & ext & f & E & Hal).
    unfold bindS. rewrite E. apply (K s p ext f Hal).
  - destruct H as (ext & E). unfold bindS. rewrite E.
    exists ext. reflexivity.
Qed.

Lemma sim_wrap_step (h0 ext : Arena.heap) (f : nat) (p : Arena.addr)
    (s : Stmt) (ra : result Var) (rd : result Expr) :
  allocated h0 ext f p s ->
  simulates h0
    (a <- ra ;; d <- rd ;; Ok (For a (IntImm 0) d s))
    ((a <- liftR ra ;;
      zero <- Arena.new (Arena.NIntImm 0) ;;
      d <- liftR rd ;;
      Arena.new (Arena.NFor a zero d p))%st (h0 ++ ext)).
Proof.
  intros Hal. destruct ra as [a|e]; [destruct rd as [d|e]|]; simpl.
  - exists (S (length (h0 ++ ext))),
      (ext ++ [Arena.NIntImm 0; Arena.NFor a (length (h0 ++ ext)) d p]),
      (S f).
    split; [|apply allocated_For; exact Hal].
    unfold bindS, liftR, Arena.new. cbv beta iota.
    rewrite length_app. cbn [length]. rewrite Nat.add_1_r.
    rewrite <- !app_assoc. reflexivity.
  - exists (ext ++ [Arena.NIntImm 0]).
    unfold bindS, liftR, Arena.new. cbv beta iota.
    rewrite <- !app_assoc. reflexivity.
  - exists ext. reflexivity.
Qed.

Lemma sim_wrap_loop (h0 : Arena.heap) (ga : nat -> result Var)
    (gd : nat -> result Expr) (m : nat) :
  forall (ext : Arena.heap) (f : nat) (p : Arena.addr) (s : Stmt),
    allocated h0 ext f p s ->
    simulates h0
      (for_upto m
         (fun i s => a <- ga i ;; d <- gd i ;; Ok (For a (IntImm 0) d s)) s)
      (for_uptoS m
         (fun i s =>
            (a <- liftR (ga i) ;;
             zero <- Arena.new (Arena.NIntImm 0) ;;
             d <- liftR (gd i) ;;
             Arena.new (Arena.NFor a zero d s))%st) p (h0 ++ ext)).
Proof.
  induction m as [|m IH]; intros ext f p s Hal.
  - apply (sim_ret _ _ _ _ _ Hal).
  - rewrite for_upto_S, for_uptoS_S.
    apply sim_bind; [apply (IH _ _ _ _ Hal)|].
    intros s' p' ext' f' Hal'. apply (sim_wrap_step _ _ _ _ _ _ _ Hal').
Qed.

Lemma sim_ElementStmt (t : Tensor) (h0 : Arena.heap) :
  simulates h0 (ElementStmt t) (Arena.ElementStmt t h0).
Proof.
  unfold ElementStmt, Arena.ElementStmt.
  destruct (for_upto _ _ _) as [indices|e]; simpl.
  - exists (S (length h0)),
      ([] ++ [Arena.NIntImm 1;
              Arena.NStore (buf_ t) indices (body_ t) (length h0)]),
      1.
    split.
    + unfold bindS, liftR, Arena.new, retS. cbv beta iota.
      rewrite length_app. cbn [length]. rewrite Nat.add_1_r.
      rewrite <- !app_assoc. reflexivity.
    + pose proof (allocated_Store h0 [] (buf_ t) indices (body_ t) 1) as H.
      cbv zeta in H. rewrite app_nil_r in H. exact H.
  - exists []. rewrite app_nil_r. reflexivity.
Qed.

(** The allocating lowering simulates the lowering over trees. *)
Lemma sim_lowerToStmt (t : Tensor) (h0 : Arena.heap) :
  simulates h0 (lowerToStmt t) (Arena.lowerToStmt t h0).
Proof.
  unfold lowerToStmt, Arena.lowerToStmt.
  apply sim_bind; [apply sim_ElementStmt|].
  intros s p ext f Hal.
  destruct (body t); [|apply (sim_ret _ _ _ _ _ Hal)].
  destruct ((ndim t =? 0) && (reduce_ndim t =? 0));
    [apply (sim_ret _ _ _ _ _ Hal)|].
  cbv zeta. apply sim_bind.
  - destruct (0 <? reduce_ndim t); [|apply (sim_ret _ _ _ _ _ Hal)].
    apply sim_bind.
    + apply (sim_wrap_loop h0
               (fun i => reduce_arg t (reduce_ndim t - i - 1))
               (fun i => reduce_dim t (reduce_ndim t - i - 1))
               _ _ _ _ _ Hal).
    + intros s1 p1 ext1 f1 Hal1.
      destruct (buf_initializer (buf t)) as [ie|];
        [|apply (sim_ret _ _ _ _ _ Hal1)].
      exists (S (S (length (h0 ++ ext1)))),
        (ext1 ++ [Arena.NIntImm 1;
                  Arena.NStore (buf t) (map EVar (args t)) (Some ie)
                    (length (h0 ++ ext1));
                  Arena.NBlock [S (length (h0 ++ ext1)); p1]]),
        (S f1).
      split; [|apply allocated_Block; exact Hal1].
      unfold bindS, Arena.new. cbv beta iota.
      rewrite !length_app. cbn [length]. rewrite <- !app_assoc.
      cbn [app]. rewrite !Nat.add_1_r. reflexivity.
  - intros s1 p1 ext1 f1 Hal1.
    apply (sim_wrap_loop h0
             (fun i => arg t (ndim t - i - 1))
             (fun i => dim t (ndim t - i - 1))
             _ _ _ _ _ Hal1).
Qed.

Lemma root_in_nodes (h : Arena.heap) (f : nat) (p : Arena.addr) (s : Stmt) :
  Arena.read_stmt f h p = Some s -> In p (Arena.nodes f h p).
Proof.
  destruct f as [|f]; simpl; [discriminate|].
  destruct (nth_error h p) as [n|]; [|discriminate].
  destruct n; intros _; left; reflexivity.
Qed.

(** A tensor that satisfies the invariants of the data model lowers to a
    statement. *)
Lemma lowerToStmt_returns (t : Tensor) :
  Tensor_wf t -> exists s, lowerToStmt t = Ok s.
Proof.
  intros Hwf. destruct (body t) as [b|] eqn:Hb.
  - exists (lowered t b). apply (lowerToStmt_lowered t b Hwf Hb).
  - unfold lowerToStmt. rewrite Hb.
    rewrite (ElementStmt_wf t (proj1 Hwf)). simpl. eauto.
Qed.

(** ** Worked examples *)

(** [Compute("add", {{4, "i"}, {4, "j"}}, [](i, j) { input[i, j] + 3 })]
    lowers to the two-deep nest over [i] and [j]. *)
Example Compute_add_lowers :
  match Compute2 "add"
          [mkDimArg (IntImm 4) (Some "i"%string);
           mkDimArg (IntImm 4) (Some "j"%string)]
          (fun i j => Add (Load "input" [EVar i; EVar j]) (IntImm 3))
          (mkBuildState 0 []) with
  | (Ok t, _) =>
    t = tensor_add /\
    lowerToStmt t
    = Ok (For var_i (IntImm 0) (IntImm 4)
            (For var_j (IntImm 0) (IntImm 4)
               (Store (buf tensor_add) [EVar var_i; EVar var_j]
                  (Some (Add (Load "input" [EVar var_i; EVar var_j])
                           (IntImm 3)))
                  (IntImm 1))))
  | (Throw _, _) => False
  end.
Proof. split; reflexivity. Qed.

(** A sum over [k < 8] of [a[n, k]] for [n < 5], built by the shared
    [Reduce], is [tensor_sum]; its initializer is stored once per [n],
    before the loop over [k]. *)
Example Reduce_sum_lowers :
  match Reduce_shared "sum" [mkDimArg (IntImm 5) (Some "n"%string)]
          (mkReducer (IntImm 0) Add)
          (fun p => Load "a" (map EVar p))
          [mkDimArg (IntImm 8) (Some "k"%string)]
          (mkBuildState 0 []) with
  | (Ok t, _) =>
    t = tensor_sum /\
    lowerToStmt t
    = Ok (For var_n (IntImm 0) (IntImm 5)
            (Block
               [Store (buf tensor_sum) [EVar var_n] (Some (IntImm 0))
                  (IntImm 1);
                For var_k (IntImm 0) (IntImm 8)
                  (Store (buf tensor_sum) [EVar var_n]
                     (Some (Add (Load "sum" [EVar var_n])
                              (Load "a" [EVar var_n; EVar var_k])))
                     (IntImm 1))]))
  | (Throw _, _) => False
  end.
Proof. split; reflexivity. Qed.

(** Three dimensions for a body over two variables. *)
Example Compute2_three_dims :
  Compute2 "t"
    [mkDimArg (IntImm 1) None; mkDimArg (IntImm 2) None;
     mkDimArg (IntImm 3) None]
    (fun i j => Add (EVar i) (EVar j)) (mkBuildState 0 [])
  = (Throw (malformed_input "mismatch between body and arg size (2)"),
     mkBuildState 0 []).
Proof. reflexivity. Qed.

(** The nodes the lowering of [tensor_sum_noinit] allocates on an empty
    arena, and the address it returns. *)
Example Arena_lower_sum_noinit :
  Arena.lowerToStmt tensor_sum_noinit []
  = (Ok 5,
     [Arena.NIntImm 1;
      Arena.NStore (buf tensor_sum_noinit) [EVar var_n]
        (body tensor_sum_noinit) 0;
      Arena.NIntImm 0;
      Arena.NFor var_k 2 (IntImm 8) 1;
      Arena.NIntImm 0;
      Arena.NFor var_n 4 (IntImm 5) 3]).
Proof. reflexivity. Qed.

Example Arena_read_sum_noinit :
  Arena.read_stmt 3 (snd (Arena.lowerToStmt tensor_sum_noinit [])) 5
  = Some (For var_n (IntImm 0) (IntImm 5)
            (For var_k (IntImm 0) (IntImm 8)
               (Store (buf tensor_sum_noinit) [EVar var_n]
                  (body tensor_sum_noinit) (IntImm 1)))).
Proof. reflexivity. Qed.

(** * Further properties of the lowering *)

Lemma loops_loop_nest (vs : list Var) (ds : list Expr) (s : Stmt) :
  loops (loop_nest vs ds s) = map axis_loop (List.combine vs ds) ++ loops s.
Proof.
  revert ds. induction vs as [|v vs IH]; intros [|d ds]; simpl; auto.
  rewrite IH. reflexivity.
Qed.

Lemma stores_loop_nest (vs : list Var) (ds : list Expr) (s : Stmt) :
  stores (loop_nest vs ds s) = stores s.
Proof.
  revert ds. induction vs as [|v vs IH]; intros [|d ds]; simpl; auto.
Qed.

Lemma combine_append {A B : Type} (l1 l2 : list A) (l1' l2' : list B) :
  length l1 = length l1' ->
  List.combine (l1 ++ l2) (l1' ++ l2') = List.combine l1 l1' ++ List.combine l2 l2'.
Proof.
  revert l1'. induction l1 as [|a l1 IH]; intros [|b l1'] H; simpl in *;
    try discriminate; auto.
  rewrite IH by (injection H; auto). reflexivity.
Qed.

(** X1. The loops of a lowered tensor, in the order they are entered, are
    the output axes in declaration order followed by the reduction axes in
    declaration order; each runs from 0 to the extent of its axis, and
    there is one loop per axis and no other. *)
Theorem lowerToStmt_loops (t : Tensor) (b : Expr) :
  Tensor_wf t ->
  body t = Some b ->
  exists s,
    lowerToStmt t = Ok s /\
    loops s
    = map axis_loop
        (List.combine (args t ++ reduce_args t) (dims t ++ reduce_dims t)) /\
    length (loops s) = ndim t + reduce_ndim t.
Proof.
  intros Hwf Hb. exists (lowered t b).
  split; [apply (lowerToStmt_lowered t b Hwf Hb)|].
  destruct Hwf as [Ha Hr].
  assert (E : loops (lowered t b)
              = map axis_loop
                  (List.combine (args t ++ reduce_args t)
                     (dims t ++ reduce_dims t))).
  { unfold lowered. rewrite loops_loop_nest, (combine_append _ _ _ _ Ha).
    rewrite map_app. f_equal.
    destruct (reduce_dims t) as [|rd rds] eqn:Erd.
    - destruct (reduce_args t); [reflexivity | discriminate].
    - destruct (buf_initializer (buf t)); simpl;
        rewrite ?app_nil_r, loops_loop_nest; simpl;
        rewrite app_nil_r; reflexivity. }
  split; [exact E|].
  rewrite E, length_map, length_combine, !length_app.
  unfold ndim, Buf_ndim, reduce_ndim.
  change (buf_dims (buf t)) with (dims t).
  change (reduce_dims_ t) with (reduce_dims t). lia.
Qed.

Lemma lowerToStmt_loops_witness :
  exists s,
    lowerToStmt tensor_sum = Ok s /\
    loops s
    = [(var_n, IntImm 0, IntImm 5); (var_k, IntImm 0, IntImm 8)].
Proof.
  assert (Hwf : Tensor_wf tensor_sum) by (split; reflexivity).
  destruct (lowerToStmt_loops tensor_sum _ Hwf eq_refl) as [s [E [L _]]].
  exists s. split; [exact E | exact L].
Defined.

(** X2. A lowered tensor stores into its own buffer only, at its dimension
    variables and under the mask 1: the element value, preceded by the
    initializer exactly when the tensor has a reduction axis and its
    buffer declares an initializer.  An initializer declared without a
    reduction axis is never stored. *)
Theorem lowerToStmt_stores (t : Tensor) (b : Expr) :
  Tensor_wf t ->
  body t = Some b ->
  exists s,
    lowerToStmt t = Ok s /\
    stores s
    = match reduce_dims t, buf_initializer (buf t) with
      | _ :: _, Some ie =>
        [Store (buf t) (map EVar (args t)) (Some ie) (IntImm 1);
         Store (buf t) (map EVar (args t)) (Some b) (IntImm 1)]
      | _, _ => [Store (buf t) (map EVar (args t)) (Some b) (IntImm 1)]
      end /\
    (forall st, In st (stores s) ->
                exists v,
                  st = Store (buf t) (map EVar (args t)) (Some v) (IntImm 1)).
Proof.
  intros Hwf Hb. exists (lowered t b).
  split; [apply (lowerToStmt_lowered t b Hwf Hb)|].
  assert (E : stores (lowered t b)
              = match reduce_dims t, buf_initializer (buf t) with
                | _ :: _, Some ie =>
                  [Store (buf t) (map EVar (args t)) (Some ie) (IntImm 1);
                   Store (buf t) (map EVar (args t)) (Some b) (IntImm 1)]
                | _, _ =>
                  [Store (buf t) (map EVar (args t)) (Some b) (IntImm 1)]
                end).
  { unfold lowered. rewrite stores_loop_nest.
    destruct (reduce_dims t) as [|rd rds];
      [rewrite stores_loop_nest; reflexivity|].
    destruct (buf_initializer (buf t)); simpl;
      rewrite ?app_nil_r, stores_loop_nest; reflexivity. }
  split; [exact E|].
  intros st Hin. rewrite E in Hin.
  destruct (reduce_dims t) as [|rd rds];
    [|destruct (buf_initializer (buf t)) as [ie|]];
    simpl in Hin; intuition (subst; eauto).
Qed.

Lemma lowerToStmt_stores_witness :
  exists s,
    lowerToStmt tensor_sum = Ok s /\
    stores s
    = [Store (buf tensor_sum) [EVar var_n] (Some (IntImm 0)) (IntImm 1);
       Store (buf tensor_sum) [EVar var_n]
         (Some (Add (Load "sum" [EVar var_n])
                  (Load "a" [EVar var_n; EVar var_k])))
         (IntImm 1)].
Proof.
  assert (Hwf : Tensor_wf tensor_sum) by (split; reflexivity).
  destruct (lowerToStmt_stores tensor_sum _ Hwf eq_refl) as [s [E [L _]]].
  exists s. split; [exact E | exact L].
Defined.

Lemma for_upto_ext {A : Type} (n : nat) (f g : nat -> A -> result A) (a : A) :
  (forall i x, i < n -> f i x = g i x) ->
  for_upto n f a = for_upto n g a.
Proof.
  induction n as [|n IH]; intros H; [reflexivity|].
  rewrite !for_upto_S, IH by (intros; apply H; lia).
  destruct (for_upto n g a); simpl; [apply H; lia | reflexivity].
Qed.

Lemma at_firstn {A : Type} (v : list A) (n i : nat) :
  i < n -> at_ (firstn n v) i = at_ v i.
Proof.
  intros H. unfold at_. rewrite nth_error_firstn.
  apply Nat.ltb_lt in H. rewrite H. reflexivity.
Qed.

Lemma loop_nest_firstn (vs : list Var) (ds : list Expr) (s : Stmt) :
  loop_nest (firstn (length ds) vs) ds s = loop_nest vs ds s.
Proof.
  revert ds. induction vs as [|v vs IH]; intros [|d ds]; simpl; auto.
  rewrite IH. reflexivity.
Qed.

(** The wrapping loop needs a variable per extent and ignores the
    others. *)
Lemma wrap_all_surplus (vs : list Var) (ds : list Expr) (s : Stmt) :
  length ds <= length vs ->
  for_upto (length ds)
    (fun i s =>
       let dim_index := length ds - i - 1 in
       a <- at_ vs dim_index ;;
       d <- at_ ds dim_index ;;
       Ok (For a (IntImm 0) d s)) s
  = Ok (loop_nest vs ds s).
Proof.
  intros Hle.
  rewrite <- loop_nest_firstn, <- (wrap_all (firstn (length ds) vs) ds s)
    by (apply firstn_length_le; exact Hle).
  apply for_upto_ext. intros i x Hi. cbv zeta.
  rewrite at_firstn by lia. reflexivity.
Qed.

(** What [lowerToStmt] returns when there are at least as many variables
    as axes. *)
Lemma lowerToStmt_lowered_surplus (t : Tensor) (b : Expr) :
  ndim t <= length (args t) ->
  reduce_ndim t <= length (reduce_args t) ->
  body t = Some b ->
  lowerToStmt t = Ok (lowered_surplus t b).
Proof.
  intros Ha Hr Hb.
  unfold lowerToStmt, ElementStmt.
  unfold ndim, buf, args in Ha.
  rewrite ElementStmt_indices by exact Ha. cbn [bindR]. rewrite Hb.
  unfold body in Hb. rewrite Hb.
  unfold lowered_surplus.
  unfold reduce_arg, reduce_dim, arg, dim.
  unfold reduce_ndim, ndim, Buf_ndim in *.
  change (reduce_dims_ t) with (reduce_dims t) in *.
  change (buf_ t) with (buf t) in *.
  change (args_ t) with (args t) in *.
  change (buf_dims (buf t)) with (dims t) in *.
  destruct ((length (dims t) =? 0) && (length (reduce_dims t) =? 0)) eqn:Hz.
  - apply andb_true_iff in Hz as [Hn Hrn].
    apply Nat.eqb_eq in Hn, Hrn.
    apply length_zero_iff_nil in Hn, Hrn. rewrite Hn, Hrn.
    destruct (args t); destruct (reduce_args t); reflexivity.
  - destruct (0 <? length (reduce_dims t)) eqn:Hpos.
    + rewrite (wrap_all_surplus _ _ _ Hr). cbn [bindR].
      apply Nat.ltb_lt in Hpos.
      destruct (reduce_dims t) as [|rd rds] eqn:Erd;
        [simpl in Hpos; lia|].
      destruct (buf_initializer (buf t)); cbn [bindR];
        apply (wrap_all_surplus _ _ _ Ha).
    + apply Nat.ltb_ge in Hpos.
      assert (Hnil : reduce_dims t = []).
      { apply length_zero_iff_nil. lia. }
      rewrite Hnil. cbn [bindR].
      replace (loop_nest (reduce_args t) [] _)
        with (Store (buf t) (map EVar (firstn (length (dims t)) (args t)))
                (Some b) (IntImm 1))
        by (destruct (reduce_args t); reflexivity).
      apply (wrap_all_surplus _ _ _ Ha).
Qed.

(** With a variable for every axis the lowering returns a statement. *)
Lemma lowerToStmt_returns_surplus (t : Tensor) :
  ndim t <= length (args t) ->
  reduce_ndim t <= length (reduce_args t) ->
  exists s, lowerToStmt t = Ok s.
Proof.
  intros Ha Hr. destruct (body t) as [b|] eqn:Hb.
  - exists (lowered_surplus t b).
    apply (lowerToStmt_lowered_surplus t b Ha Hr Hb).
  - unfold lowerToStmt, ElementStmt.
    unfold ndim, buf, args in Ha.
    rewrite ElementStmt_indices by exact Ha. cbn [bindR].
    rewrite Hb. eauto.
Qed.

(** X3. Lowering needs at least as many variables as axes, not exactly as
    many.  With surplus output variables the loops and the element [Store]
    use the leading [ndim] variables only, whereas the initializer [Store]
    of a reduction is indexed by all the variables: the two stores then
    address the buffer with index lists of different lengths. *)
Theorem lowerToStmt_surplus_variables (t : Tensor) (b : Expr) :
  ndim t <= length (args t) ->
  reduce_ndim t <= length (reduce_args t) ->
  body t = Some b ->
  lowerToStmt t = Ok (lowered_surplus t b)
  /\ (forall ie rd rds,
        buf_initializer (buf t) = Some ie ->
        reduce_dims t = rd :: rds ->
        stores (lowered_surplus t b)
        = [Store (buf t) (map EVar (args t)) (Some ie) (IntImm 1);
           Store (buf t) (map EVar (firstn (ndim t) (args t))) (Some b)
             (IntImm 1)]).
Proof.
  intros Ha Hr Hb. split.
  - apply (lowerToStmt_lowered_surplus t b Ha Hr Hb).
  - intros ie rd rds Hi Hrd. unfold lowered_surplus.
    rewrite stores_loop_nest, Hi, Hrd. simpl.
    rewrite stores_loop_nest. reflexivity.
Qed.

Lemma lowerToStmt_surplus_variables_witness :
  ndim tensor_surplus <= length (args tensor_surplus) /\
  lowerToStmt tensor_surplus
  = Ok (For var_n (IntImm 0) (IntImm 5)
          (Block
             [Store (buf tensor_surplus) [EVar var_n; EVar var_j]
                (Some (IntImm 0)) (IntImm 1);
              For var_k (IntImm 0) (IntImm 8)
                (Store (buf tensor_surplus) [EVar var_n]
                   (Some (Add (Load "sum" [EVar var_n])
                            (Load "a" [EVar var_n; EVar var_k])))
                   (IntImm 1))])).
Proof.
  assert (Ha : ndim tensor_surplus <= length (args tensor_surplus))
    by (vm_compute; lia).
  assert (Hr : reduce_ndim tensor_surplus
               <= length (reduce_args tensor_surplus))
    by (vm_compute; lia).
  split; [exact Ha|].
  destruct (lowerToStmt_surplus_variables tensor_surplus _ Ha Hr eq_refl)
    as [E _].
  rewrite E. reflexivity.
Defined.

(** C7. Lowering the same tensor twice gives the same statement tree both
    times, although each invocation allocates its nodes anew.  For a
    tensor with a variable for every output and reduction axis, the
    lowering determines one tree; run twice in a row on any arena, it
    returns two different addresses, the trees at the two addresses have
    no node in common, and both read back as that one tree. *)
Theorem lowerToStmt_twice (t : Tensor) (h : Arena.heap) :
  ndim t <= length (args t) ->
  reduce_ndim t <= length (reduce_args t) ->
  exists s p1 ext1 f1 p2 ext2 f2,
    lowerToStmt t = Ok s /\
    Arena.lowerToStmt t h = (Ok p1, h ++ ext1) /\
    Arena.lowerToStmt t (h ++ ext1) = (Ok p2, (h ++ ext1) ++ ext2) /\
    Arena.read_stmt f1 ((h ++ ext1) ++ ext2) p1 = Some s /\
    Arena.read_stmt f2 ((h ++ ext1) ++ ext2) p2 = Some s /\
    p1 <> p2 /\
    (forall a,
        In a (Arena.nodes f1 ((h ++ ext1) ++ ext2) p1) ->
        ~ In a (Arena.nodes f2 ((h ++ ext1) ++ ext2) p2)).
Proof.
  intros Ha Hr.
  destruct (lowerToStmt_returns_surplus t Ha Hr) as [s E].
  pose proof (sim_lowerToStmt t h) as H1. rewrite E in H1.
  destruct H1 as (p1 & ext1 & f1 & E1 & R1 & _ & N1).
  pose proof (sim_lowerToStmt t (h ++ ext1)) as H2. rewrite E in H2.
  destruct H2 as (p2 & ext2 & f2 & E2 & R2 & _ & N2).
  exists s, p1, ext1, f1, p2, ext2, f2.
  assert (N1' : Forall (fun a => a < length (h ++ ext1))
                  (Arena.nodes f1 ((h ++ ext1) ++ ext2) p1)).
  { rewrite (nodes_extend _ ext2 _ _ _ R1).
    eapply Forall_impl; [|exact N1]. intros a Hlt. cbv beta in Hlt. lia. }
  assert (N2' : Forall (fun a => length (h ++ ext1) <= a)
                  (Arena.nodes f2 ((h ++ ext1) ++ ext2) p2)).
  { eapply Forall_impl; [|exact N2]. intros a Hge. cbv beta in Hge. lia. }
  rewrite Forall_forall in N1', N2'.
  assert (R1' := read_stmt_extend _ ext2 _ _ _ R1).
  repeat split; auto.
  - intros ->.
    pose proof (N1' _ (root_in_nodes _ _ _ _ R1')).
    pose proof (N2' _ (root_in_nodes _ _ _ _ R2)). lia.
  - intros a Ha1 Ha2. pose proof (N1' _ Ha1). pose proof (N2' _ Ha2). lia.
Qed.

Lemma lowerToStmt_twice_witness :
  ndim tensor_sum <= length (args tensor_sum) /\
  reduce_ndim tensor_sum <= length (reduce_args tensor_sum) /\
  exists s p1 h1 p2 h2 f1 f2,
    lowerToStmt tensor_sum = Ok s /\
    Arena.lowerToStmt tensor_sum [] = (Ok p1, h1) /\
    Arena.lowerToStmt tensor_sum h1 = (Ok p2, h2) /\
    Arena.read_stmt f1 h2 p1 = Some s /\
    Arena.read_stmt f2 h2 p2 = Some s /\
    p1 <> p2.
Proof.
  assert (Ha : ndim tensor_sum <= length (args tensor_sum))
    by (vm_compute; lia).
  assert (Hr : reduce_ndim tensor_sum <= length (reduce_args tensor_sum))
    by (vm_compute; lia).
  split; [exact Ha|]. split; [exact Hr|].
  destruct (lowerToStmt_twice tensor_sum [] Ha Hr)
    as (s & p1 & ext1 & f1 & p2 & ext2 & f2
        & E & E1 & E2 & R1 & R2 & Hne & _).
  exists s, p1, ([] ++ ext1), p2, (([] ++ ext1) ++ ext2), f1, f2.
  repeat split; assumption.
Defined.

(** ** Allocation by the lowering *)

Lemma bindS_Ok {S A B : Type} (m : ST S A) (k : A -> ST S B) (st st' : S)
    (b : B) :
  bindS m k st = (Ok b, st') ->
  exists a st1, m st = (Ok a, st1) /\ k a st1 = (Ok b, st').
Proof.
  unfold bindS. destruct (m st) as [[a|e] st1]; [eauto | discriminate].
Qed.

Lemma liftR_Ok {S A : Type} (r : result A) (st st' : S) (a : A) :
  liftR r st = (Ok a, st') -> r = Ok a /\ st' = st.
Proof. unfold liftR. intros H. injection H as -> ->. auto. Qed.

Lemma new_Ok (n : Arena.Node) (h h' : Arena.heap) (p : Arena.addr) :
  Arena.new n h = (Ok p, h') -> p = length h /\ h' = h ++ [n].
Proof. unfold Arena.new. intros H. injection H as <- <-. auto. Qed.

Lemma arena_wrap_loop_grows (ga : nat -> result Var)
    (gd : nat -> result Expr) (m : nat) :
  forall (p p' : Arena.addr) (h h' : Arena.heap),
    S p = length h ->
    for_uptoS m
      (fun i s =>
         (a <- liftR (ga i) ;;
          zero <- Arena.new (Arena.NIntImm 0) ;;
          d <- liftR (gd i) ;;
          Arena.new (Arena.NFor a zero d s))%st) p h
    = (Ok p', h') ->
    exists ext, h' = h ++ ext /\ length ext = 2 * m /\ S p' = length h'.
Proof.
  induction m as [|m IH]; intros p p' h h' Hp H.
  - unfold for_uptoS, retS in H. simpl in H. injection H as <- <-.
    exists []. rewrite app_nil_r. auto.
  - rewrite for_uptoS_S in H.
    apply bindS_Ok in H as (p1 & h1 & H1 & H).
    destruct (IH _ _ _ _ Hp H1) as (ext1 & -> & Hlen & Hp1).
    apply bindS_Ok in H as (a & h2 & Ha & H).
    apply liftR_Ok in Ha as [_ ->].
    apply bindS_Ok in H as (zero & h3 & Hz & H).
    apply new_Ok in Hz as [-> ->].
    apply bindS_Ok in H as (d & h4 & Hd & H).
    apply liftR_Ok in Hd as [_ ->].
    apply new_Ok in H as [-> ->].
    exists (ext1 ++ [Arena.NIntImm 0;
                     Arena.NFor a (length (h ++ ext1)) d p1]).
    rewrite <- !app_assoc. split; [reflexivity|].
    rewrite !length_app. simpl. lia.
Qed.

Lemma Arena_ElementStmt_grows (t : Tensor) (h h' : Arena.heap)
    (p : Arena.addr) :
  Arena.ElementStmt t h = (Ok p, h') ->
  exists ext, h' = h ++ ext /\ length ext = 2 /\ S p = length h'.
Proof.
  unfold Arena.ElementStmt. intros H.
  apply bindS_Ok in H as (indices & h1 & Hi & H).
  apply liftR_Ok in Hi as [_ ->].
  apply bindS_Ok in H as (mask & h2 & Hm & H).
  apply new_Ok in Hm as [-> ->].
  apply bindS_Ok in H as (st & h3 & Hs & H).
  apply new_Ok in Hs as [-> ->].
  unfold retS in H. injection H as <- <-.
  exists [Arena.NIntImm 1;
          Arena.NStore (buf_ t) indices (body_ t) (length h)].
  rewrite <- !app_assoc. split; [reflexivity|].
  rewrite !length_app. simpl. lia.
Qed.

Lemma Arena_lowerToStmt_grows (t : Tensor) (h h' : Arena.heap)
    (p : Arena.addr) :
  Arena.lowerToStmt t h = (Ok p, h') ->
  exists ext,
    h' = h ++ ext /\ length ext = alloc_count t /\ S p = length h'.
Proof.
  unfold Arena.lowerToStmt, alloc_count. intros H.
  apply bindS_Ok in H as (p0 & h0 & H0 & H).
  apply Arena_ElementStmt_grows in H0 as (ext0 & -> & Hlen0 & Hp0).
  destruct (body t) as [b|].
  2:{ unfold retS in H. injection H as <- <-.
      exists ext0. repeat split; [lia | exact Hp0]. }
  destruct ((ndim t =? 0) && (reduce_ndim t =? 0)) eqn:Hz.
  { unfold retS in H. injection H as <- <-.
    apply andb_true_iff in Hz as [Hn Hr].
    apply Nat.eqb_eq in Hn, Hr. rewrite Hn, Hr.
    exists ext0. repeat split; [|exact Hp0].
    destruct (buf_initializer (buf t)); simpl; lia. }
  cbv zeta in H.
  apply bindS_Ok in H as (p1 & h1 & H1 & H).
  apply arena_wrap_loop_grows in H.
  2:{ destruct (0 <? reduce_ndim t).
      - apply bindS_Ok in H1 as (p2 & h2 & H2 & H1).
        apply arena_wrap_loop_grows in H2 as (ext2 & -> & _ & Hp2);
          [|exact Hp0].
        destruct (buf_initializer (buf t)).
        + apply bindS_Ok in H1 as (one & h3 & Ho & H1).
          apply new_Ok in Ho as [-> ->].
          apply bindS_Ok in H1 as (init & h4 & Hi & H1).
          apply new_Ok in Hi as [-> ->].
          apply new_Ok in H1 as [-> ->].
          rewrite !length_app. simpl. lia.
        + unfold retS in H1. injection H1 as <- <-. exact Hp2.
      - unfold retS in H1. injection H1 as <- <-. exact Hp0. }
  destruct H as (ext3 & -> & Hlen3 & Hp).
  destruct (0 <? reduce_ndim t) eqn:Hpos.
  - apply bindS_Ok in H1 as (p2 & h2 & H2 & H1).
    apply arena_wrap_loop_grows in H2 as (ext2 & -> & Hlen2 & Hp2);
      [|exact Hp0].
    destruct (buf_initializer (buf t)) as [ie|].
    + apply bindS_Ok in H1 as (one & h3 & Ho & H1).
      apply new_Ok in Ho as [-> ->].
      apply bindS_Ok in H1 as (init & h4 & Hi & H1).
      apply new_Ok in Hi as [-> ->].
      apply new_Ok in H1 as [-> ->].
      eexists. rewrite <- !app_assoc. split; [reflexivity|].
      split; [|rewrite !app_assoc; exact Hp].
      rewrite !length_app. simpl. lia.
    + unfold retS in H1. injection H1 as <- <-.
      eexists. rewrite <- !app_assoc. split; [reflexivity|].
      split; [|rewrite !app_assoc; exact Hp].
      rewrite !length_app. lia.
  - unfold retS in H1. injection H1 as <- <-.
    apply Nat.ltb_ge in Hpos.
    assert (Hr0 : reduce_ndim t = 0) by lia.
    eexists. rewrite <- !app_assoc. split; [reflexivity|].
    split; [|rewrite !app_assoc; exact Hp].
    rewrite !length_app, Hr0.
    destruct (buf_initializer (buf t)); lia.
Qed.

(** X4. Lowering a tensor that satisfies the invariants allocates a fixed
    number of nodes, linear in the number of axes: 2 for the element
    [Store], 2 per output and reduction axis when the tensor has a body,
    and 3 more for the initializer of a reduction.  The nodes are added
    after the ones that exist, which stay as they are, and the statement
    returned is the node allocated last. *)
Theorem Arena_lowerToStmt_allocation (t : Tensor) (h : Arena.heap) :
  Tensor_wf t ->
  exists p ext,
    Arena.lowerToStmt t h = (Ok p, h ++ ext) /\
    length ext = alloc_count t /\
    S p = length (h ++ ext).
Proof.
  intros Hwf.
  destruct (lowerToStmt_returns t Hwf) as [s Hs].
  pose proof (sim_lowerToStmt t h) as Hsim. rewrite Hs in Hsim.
  destruct Hsim as (p & ext & f & E & _).
  destruct (Arena_lowerToStmt_grows _ _ _ _ E) as (ext' & Eh & Hlen & Hp).
  apply app_inv_head in Eh. subst ext'.
  exists p, ext. auto.
Qed.

Lemma Arena_lowerToStmt_allocation_witness :
  exists p ext,
    Arena.lowerToStmt tensor_sum [] = (Ok p, ext) /\
    length ext = 9 /\ p = 8.
Proof.
  assert (Hwf : Tensor_wf tensor_sum) by (split; reflexivity).
  destruct (Arena_lowerToStmt_allocation tensor_sum [] Hwf)
    as (p & ext & E & Hlen & Hp).
  exists p, ext. split; [exact E|]. split; [exact Hlen|].
  simpl in Hp. rewrite Hlen in Hp. injection Hp as Hp. exact Hp.
Defined.

(** * Further properties of the builders *)

Lemma map_fst_combine_eq {A B : Type} (l : list A) (l' : list B) :
  length l = length l' -> map fst (List.combine l l') = l.
Proof.
  revert l'. induction l as [|a l IH]; intros [|b l'] H; simpl in *;
    try discriminate; auto.
  rewrite IH by (injection H; auto). reflexivity.
Qed.

(** X5. With as many dimensions as its body takes variables, an
    arity-specialised [Compute] does exactly what the [Compute] over the
    vector of variables does with the same body applied to the elements of
    the vector in order: the same tensor, the same variables allocated,
    the same call of the body. *)
Theorem Compute_arity_as_vector (func_name : string) (dim_args : list DimArg)
    (b : BodyFunc) (st : BuildState) :
  length dim_args = arity b ->
  Compute_arity func_name dim_args b st
  = Compute func_name dim_args (BodyFunc_on_vector b) st.
Proof.
  intros H.
  destruct b; simpl in H;
    repeat (destruct dim_args as [|? dim_args]; try discriminate H);
    reflexivity.
Qed.

Lemma Compute_arity_as_vector_witness :
  Compute_arity "t" [mkDimArg (IntImm 4) None; mkDimArg (IntImm 5) None]
    (Body2 (fun i j => Add (EVar i) (EVar j))) (mkBuildState 3 [])
  = Compute "t" [mkDimArg (IntImm 4) None; mkDimArg (IntImm 5) None]
      (BodyFunc_on_vector (Body2 (fun i j => Add (EVar i) (EVar j))))
      (mkBuildState 3 []).
Proof.
  apply (Compute_arity_as_vector "t"
           [mkDimArg (IntImm 4) None; mkDimArg (IntImm 5) None]
           (Body2 (fun i j => Add (EVar i) (EVar j))) (mkBuildState 3 [])).
  reflexivity.
Defined.

(** X6. A tensor built by [Compute] always lowers, whatever the dimension
    list: to one loop per dimension, in the order of the dimensions, each
    from 0 to the extent given for it, over pairwise distinct variables,
    around the single [Store] of the body the callable returned for those
    variables. *)
Theorem Compute_then_lowerToStmt (func_name : string)
    (dim_args : list DimArg) (body_func : list Var -> Expr)
    (st : BuildState) :
  exists t st',
    Compute func_name dim_args body_func st = (Ok t, st') /\
    lowerToStmt t
    = Ok (loop_nest (args t) (map extent dim_args)
            (Store (buf t) (map EVar (args t)) (Some (body_func (args t)))
               (IntImm 1))) /\
    (forall s,
        lowerToStmt t = Ok s ->
        loops s
        = map axis_loop (List.combine (args t) (map extent dim_args)) /\
        length (loops s) = length dim_args /\
        NoDup (map (fun l => fst (fst l)) (loops s)) /\
        stores s
        = [Store (buf t) (map EVar (args t)) (Some (body_func (args t)))
             (IntImm 1)]).
Proof.
  eexists. eexists. split; [apply Compute_run|].
  set (vars := fresh_vars (next_var_id st) dim_args).
  set (t := Tensor_of_body func_name (map extent dim_args) vars
              (body_func vars)).
  assert (Hlen : length vars = length (map extent dim_args)).
  { unfold vars. rewrite fresh_vars_length, length_map. reflexivity. }
  assert (Hwf : Tensor_wf t) by (apply Tensor_of_body_wf; exact Hlen).
  assert (E : lowerToStmt t
              = Ok (loop_nest vars (map extent dim_args)
                      (Store (buf t) (map EVar vars) (Some (body_func vars))
                         (IntImm 1)))).
  { rewrite (lowerToStmt_lowered t (body_func vars) Hwf eq_refl).
    reflexivity. }
  split; [exact E|].
  intros s Hs. rewrite E in Hs. injection Hs as <-.
  rewrite loops_loop_nest, stores_loop_nest. simpl. rewrite app_nil_r.
  split; [reflexivity|]. split.
  - rewrite length_map, length_combine, Hlen, length_map. lia.
  - split; [|reflexivity].
    rewrite map_map. unfold axis_loop. simpl.
    change (fun x : Var * Expr => fst x) with (@fst Var Expr).
    rewrite (map_fst_combine_eq _ _ Hlen). apply fresh_vars_NoDup.
Qed.

(** X7. Tensors built by consecutive calls of [Compute] share no index
    variable, and every variable of a tensor was allocated by the call
    that built it. *)
Theorem Compute_calls_share_no_variable (name1 name2 : string)
    (dims1 dims2 : list DimArg) (body1 body2 : list Var -> Expr)
    (st st1 st2 : BuildState) (t1 t2 : Tensor) :
  Compute name1 dims1 body1 st = (Ok t1, st1) ->
  Compute name2 dims2 body2 st1 = (Ok t2, st2) ->
  (forall v, In v (args t1) -> ~ In v (args t2))
  /\ (forall v, In v (args t1) ->
                next_var_id st <= var_id v < next_var_id st1)
  /\ (forall v, In v (args t2) ->
                next_var_id st1 <= var_id v < next_var_id st2).
Proof.
  rewrite !Compute_run. cbv zeta. intros H1 H2.
  injection H1 as <- <-. injection H2 as <- <-.
  cbn [args args_ Tensor_of_body next_var_id].
  assert (R : forall n ds v,
             In v (fresh_vars n ds) -> n <= var_id v < n + length ds).
  { intros n ds v Hin. apply (in_map var_id) in Hin.
    rewrite fresh_vars_ids in Hin. apply in_seq in Hin. lia. }
  split; [|split].
  - intros v Hv1 Hv2. apply R in Hv1, Hv2. lia.
  - intros v Hv. apply R in Hv. exact Hv.
  - intros v Hv. apply R in Hv. exact Hv.
Qed.

Lemma Compute_calls_share_no_variable_witness :
  exists t1 st1 t2 st2,
    Compute "a" [mkDimArg (IntImm 4) None] (fun _ => IntImm 1)
      (mkBuildState 0 []) = (Ok t1, st1) /\
    Compute "b" [mkDimArg (IntImm 4) None] (fun _ => IntImm 2) st1
    = (Ok t2, st2) /\
    (forall v, In v (args t1) -> ~ In v (args t2)).
Proof.
  eexists. eexists. eexists. eexists.
  split; [reflexivity|]. split; [reflexivity|].
  apply (Compute_calls_share_no_variable "a" "b"
           [mkDimArg (IntImm 4) None] [mkDimArg (IntImm 4) None]
           (fun _ => IntImm 1) (fun _ => IntImm 2)
           (mkBuildState 0 []) _ _ _ _ eq_refl eq_refl).
Defined.

(** * Lists of optional tensor references *)

Lemma push_back_all {A B : Type} (g : A -> B) (l : list A) (acc : list B) :
  fold_left (fun own t => own ++ [g t]) l acc = acc ++ map g l.
Proof.
  revert acc. induction l as [|a l IH]; intros acc; simpl.
  - rewrite app_nil_r. reflexivity.
  - rewrite IH, <- app_assoc. reflexivity.
Qed.

Lemma same_ref_refl {ops : OptTensorList.TensorRefs}
    (r : OptTensorList.OptionalTensorRef) :
  OptTensorList.same_ref r r.
Proof. split; auto. Qed.

(** X8. [get] never raises on an object made by the constructor: the
    object owns a container exactly when the list it was made from is not
    boxed.  For a boxed list [get] is the container of the list itself and
    nothing is copied; for an unboxed list it is a new container with one
    element per element of the list. *)
Theorem MaybeOwnBoxed_get_returns {ops : OptTensorList.TensorRefs}
    (ref : OptTensorList.IOptTensorListRef) :
  exists l,
    OptTensorList.get (OptTensorList.make ref) = OptTensorList.Value l /\
    length l = OptTensorList.size ref /\
    OptTensorList.own_ (OptTensorList.make ref)
    = (if OptTensorList.isBoxed ref then None else Some l) /\
    (forall b, ref = OptTensorList.Boxed b -> l = b).
Proof.
  destruct ref as [rs|b].
  - eexists. split; [reflexivity|].
    cbn [OptTensorList.make OptTensorList.own_ OptTensorList.isBoxed negb
         OptTensorList.size OptTensorList.iterate].
    rewrite push_back_all. cbn [app]. rewrite !length_map.
    repeat split. intros b Hb. discriminate Hb.
  - exists b. repeat split. intros b' Hb. injection Hb as <-. reflexivity.
Qed.

(** X9. The container [get] returns holds the elements of the list the
    object was made from: read back element by element as optional
    references, it gives references with a value where the list had one,
    to the same tensors, and empty references where it had none. *)
Theorem MaybeOwnBoxed_get_same_elements {ops : OptTensorList.TensorRefs}
    (ref : OptTensorList.IOptTensorListRef)
    (l : OptTensorList.boxed_type) :
  OptTensorList.lawful ops ->
  OptTensorList.get (OptTensorList.make ref) = OptTensorList.Value l ->
  Forall2 OptTensorList.same_ref
    (OptTensorList.iterate ref)
    (OptTensorList.iterate (OptTensorList.Boxed l)).
Proof.
  intros (Hnone & Hof & Hdef) Hget.
  destruct ref as [rs|b].
  - cbn in Hget. rewrite push_back_all in Hget. cbn [app] in Hget.
    injection Hget as <-.
    cbn [OptTensorList.iterate]. unfold OptTensorList.Unboxed_iterator_get.
    rewrite !map_map, map_id.
    induction rs as [|r rs IH]; simpl; constructor; [|exact IH].
    destruct (OptTensorList.has_value r) eqn:Hv; simpl.
    + rewrite (Hdef r Hv). destruct (Hof _ (Hdef r Hv)) as [Hv' Hd'].
      split; [congruence | intros _; symmetry; exact Hd'].
    + split; [congruence | intros Habs; congruence].
  - cbn in Hget. injection Hget as <-.
    cbn [OptTensorList.iterate].
    induction b as [|e b IH]; simpl; constructor;
      [apply same_ref_refl | exact IH].
Qed.

Lemma option_refs_lawful : OptTensorList.lawful OptTensorList.option_refs.
Proof.
  repeat split.
  - destruct t; [reflexivity | discriminate].
  - destruct r; [reflexivity | discriminate].
Qed.

Lemma MaybeOwnBoxed_get_same_elements_witness :
  Forall2 (OptTensorList.same_ref (ops:=OptTensorList.option_refs))
    [Some 7; None; Some 9]
    (OptTensorList.iterate (ops:=OptTensorList.option_refs)
       (OptTensorList.Boxed (ops:=OptTensorList.option_refs)
          [Some (Some 7); None; Some (Some 9)])).
Proof.
  apply (MaybeOwnBoxed_get_same_elements (ops:=OptTensorList.option_refs)
           (OptTensorList.Unboxed (ops:=OptTensorList.option_refs)
              [Some 7; None; Some 9])
           [Some (Some 7); None; Some (Some 9)]
           option_refs_lawful eq_refl).
Defined.

(** X10. Reading an element of a boxed list of optional tensors never
    gives a reference with a value to an undefined tensor: the reference
    has a value exactly when the element holds a defined tensor, and then
    it dereferences to that tensor; an absent element and an undefined
    tensor both read as the empty reference. *)
Theorem Boxed_iterator_get_defined_only {ops : OptTensorList.TensorRefs}
    (element : option OptTensorList.ATensor) :
  OptTensorList.lawful ops ->
  OptTensorList.has_value (OptTensorList.Boxed_iterator_get element)
  = match element with
    | Some tensor => OptTensorList.defined tensor
    | None => false
    end
  /\ (OptTensorList.has_value (OptTensorList.Boxed_iterator_get element)
      = true ->
      exists tensor,
        element = Some tensor /\
        OptTensorList.defined tensor = true /\
        OptTensorList.deref (OptTensorList.Boxed_iterator_get element)
        = tensor)
  /\ (OptTensorList.has_value (OptTensorList.Boxed_iterator_get element)
      = false ->
      OptTensorList.Boxed_iterator_get element = OptTensorList.ref_none).
Proof.
  intros (Hnone & Hof & _).
  unfold OptTensorList.Boxed_iterator_get.
  destruct element as [tensor|].
  - destruct (OptTensorList.defined tensor) eqn:Hd.
    + destruct (Hof _ Hd) as [Hv Hde]. rewrite Hv.
      repeat split; [|discriminate].
      intros _. exists tensor. auto.
    + rewrite Hnone. repeat split; discriminate.
  - rewrite Hnone. repeat split; discriminate.
Qed.

Lemma Boxed_iterator_get_defined_only_witness :
  OptTensorList.has_value (TensorRefs:=OptTensorList.option_refs)
    (OptTensorList.Boxed_iterator_get (ops:=OptTensorList.option_refs)
       (Some None))
  = false.
Proof.
  apply (Boxed_iterator_get_defined_only (ops:=OptTensorList.option_refs)
           (Some None) option_refs_lawful).
Defined.
